(** * Spotinst task helpers of kops: a shallow embedding of
    [upup/pkg/fi/cloudup/spotinsttasks/helper.go]

    The Go package is a translation layer between the provider-neutral task
    model of kops and the wire records of the Spotinst SDK.  Every function
    of [helper.go] that the specification speaks about is transcribed below
    and the specification's sentences are then settled as theorems.

    Conventions of the embedding
    - a Go pointer [*T] that may be nil is an [option T]; pointer identity is
      not modelled, only the pointee;
    - a Go [string] is a [string] of bytes ([ascii]);
    - Go's sized integers are [Z] together with the wrap-around of each
      conversion ([wrap]);
    - a Go [map[string]T] is a [gmap string T]; the unspecified iteration
      order of [range] over a map is an explicit enumeration;
    - a Go slice is an [option (list T)], [None] being the nil slice;
    - a call either returns a value, returns an error, or panics
      ([outcome]); the calls made to the two collaborators are recorded in a
      log next to the outcome ([io]). *)

From stdpp Require Import gmap strings list fin_maps.
From Stdlib Require Import ZArith Ascii.

Local Open Scope Z_scope.

(* [set_solver] clears hypotheses it has already used up. *)
Set Warnings "-clear-no-such-hyp".

(* ===================================================================== *)
(** * Part I: the Go run time as far as the helpers use it *)
(* ===================================================================== *)

(** ** Sized integers *)

(** Two's complement reduction of [z] to a signed integer of [bits] bits. *)
Definition wrap (bits z : Z) : Z :=
  (z + 2 ^ (bits - 1)) `mod` 2 ^ bits - 2 ^ (bits - 1).

Definition in_range (bits z : Z) : Prop :=
  - 2 ^ (bits - 1) ≤ z < 2 ^ (bits - 1).

(** Width of Go's [int]: 64 bits on every platform kops is built for. *)
Definition int_bits : Z := 64.

(** The conversions [int64(x)] of an [int32] and [int(x)] of an [int64]. *)
Definition int64_of_int32 (x : Z) : Z := wrap 64 x.
Definition int_of_int64 (x : Z) : Z := wrap int_bits x.

(** ** Errors *)

(** Error values.  [Errorf] keeps the format and the arguments of a
    [fmt.Errorf] call, [RequiredFieldError] is what [fi.RequiredField]
    builds, and [OtherError] stands for an error made by a collaborator. *)
Inductive error : Type :=
| RequiredFieldError (key : string)
| Errorf (format : string) (args : list fmt_arg)
| OtherError (msg : string)
with fmt_arg : Type :=
| ArgString (s : string)
| ArgError (e : error).

(** The number of [Errorf] layers around the innermost error, plus one. *)
Fixpoint error_size (e : error) : nat :=
  match e with
  | Errorf _ args =>
      S ((fix args_size (l : list fmt_arg) : nat :=
            match l with
            | [] => O
            | a :: l' =>
                (match a with
                 | ArgString _ => O
                 | ArgError e' => error_size e'
                 end + args_size l')%nat
            end) args)
  | RequiredFieldError _ | OtherError _ => 1%nat
  end.

(** ** Outcomes and the collaborator log *)

Inductive outcome (A : Type) : Type :=
| Ok (a : A)
| Err (e : error)
| Panic.
Arguments Ok {A} a.
Arguments Err {A} e.
Arguments Panic {A}.

(** A call to one of the two collaborators. *)
Inductive call : Type :=
| CallGetMachineTypeInfo (instanceTypeName : string)
| CallResolveImage (name : string).

(** A computation that may call collaborators: its outcome and the calls it
    made, in order. *)
Definition io (A : Type) : Type := (outcome A * list call)%type.

Definition io_ret {A} (a : A) : io A := (Ok a, []).
Definition io_fail {A} (e : error) : io A := (Err e, []).
Definition io_bind {A B} (m : io A) (f : A → io B) : io B :=
  match m with
  | (Ok a, t) => let '(r, t') := f a in (r, t ++ t')
  | (Err e, t) => (Err e, t)
  | (Panic, t) => (Panic, t)
  end.

Notation "'let*' x ':=' m 'in' k" := (io_bind m (λ x, k))
  (at level 10, x name, m at level 100, k at level 200, only parsing).

(** ** Slices *)

(** [None] is the nil slice, [Some l] a slice with elements [l]. *)
Definition slice (A : Type) : Type := option (list A).

(** [make([]T, 0, n)]: empty and not nil, whatever the capacity. *)
Definition make_slice {A} (capacity : nat) : slice A := Some [].

Definition slice_elems {A} (s : slice A) : list A := default [] s.

(** [append(s, x)]. *)
Definition append {A} (s : slice A) (x : A) : slice A :=
  Some (slice_elems s ++ [x]).

(* ===================================================================== *)
(** * Part II: the packages the helpers import *)
(* ===================================================================== *)

(** ** Package [fi]: pointer helpers *)

Module fi.

(** Modelled from the spec: [fi.StringValue], [fi.Int32Value] and
    [fi.Int64Value] of package [fi], which is not among the sources.  They
    read through a pointer and give the zero value of the type for nil
    (the specification's "coerced to 0 when the internal volume size is
    nil"). *)
Definition StringValue (p : option string) : string := default "" p.
Definition Int32Value (p : option Z) : Z := default 0 p.
Definition Int64Value (p : option Z) : Z := default 0 p.

(** Modelled from the spec: [fi.String], [fi.Bool], [fi.Int] and
    [fi.Int64] of package [fi]: a pointer to a copy of the argument, never
    nil. *)
Definition String (s : string) : option string := Some s.
Definition Bool (b : bool) : option bool := Some b.
Definition Int (i : Z) : option Z := Some i.
Definition Int64 (i : Z) : option Z := Some i.

(** Modelled from the spec: [fi.RequiredField], the "required field
    missing" error for the named field. *)
Definition RequiredField (key : string) : error := RequiredFieldError key.

End fi.

(** ** Package [awstasks]: the internal task model *)

Module awstasks.

(** Modelled from the spec: the struct [awstasks.BlockDeviceMapping]
    (section 3; the device name is the key of the enclosing map). *)
Record BlockDeviceMapping : Type := {
  VirtualName : option string;
  EbsDeleteOnTermination : option bool;
  EbsVolumeSize : option Z;
  EbsVolumeType : option string;
  EbsVolumeIops : option Z
}.

(** The zero value [awstasks.BlockDeviceMapping{}]. *)
Definition BlockDeviceMapping_zero : BlockDeviceMapping :=
  {| VirtualName := None; EbsDeleteOnTermination := None;
     EbsVolumeSize := None; EbsVolumeType := None; EbsVolumeIops := None |}.

(** Modelled from the spec: the struct [awstasks.Subnet], of which the
    helpers read the identifier only. *)
Record Subnet : Type := { ID : option string }.

End awstasks.

(** ** Package [awsup]: the two collaborators *)

Module awsup.

(** The [ec2.Image] descriptor, of which the root device name is read. *)
Record Image : Type := { RootDeviceName : option string }.

(** The interface [awsup.AWSCloud], of which [ResolveImage] is called.
    It returns Go's pair [(image, err)]; each half may be nil. *)
Record AWSCloud : Type := {
  ResolveImage : string → option Image * option error
}.

(** Modelled from the spec: the machine-type descriptor of section 6,
    which "exposes a list of ephemeral device descriptors, each with a
    device name and virtual name". *)
Record EphemeralDevice : Type := {
  DeviceName : string;
  EphemeralVirtualName : string
}.

Record MachineTypeInfo : Type := {
  EphemeralDevices : list EphemeralDevice
}.

End awsup.

(** ** Package [awseg]: wire records of the elastigroup API *)

Module awseg.

Record Tag : Type := { TagKey : option string; TagValue : option string }.

Record AutoScaleLabel : Type := {
  LabelKey : option string;
  LabelValue : option string
}.

Record EBS : Type := {
  DeleteOnTermination : option bool;
  VolumeType : option string;
  VolumeSize : option Z;
  IOPS : option Z
}.

Record BlockDeviceMapping : Type := {
  DeviceName : option string;
  VirtualName : option string;
  EBS_ : option EBS
}.

End awseg.

(** ** Package [awsoc]: wire records of the ocean API *)

Module awsoc.

Record Tag : Type := { TagKey : option string; TagValue : option string }.

Record Label : Type := {
  LabelKey : option string;
  LabelValue : option string
}.

Record Taint : Type := {
  Key : option string;
  Value : option string;
  Effect : option string
}.

End awsoc.

(* ===================================================================== *)
(** * Part III: package [spotinsttasks], file [helper.go] *)
(* ===================================================================== *)

(** Modelled from the spec: the struct [RootVolumeOpts], declared in another
    file of the package ("size, type, iops"); the helper reads [Size] and
    [IOPS] through [fi.Int32Value] and hands [Type] on as a pointer. *)
Record RootVolumeOpts : Type := {
  Type_ : option string;
  Size : option Z;
  IOPS : option Z
}.

(** ** Block devices *)

Section BlockDevices.

(** The machine-type catalogue [awsup.GetMachineTypeInfo], a collaborator:
    it gives an error or a descriptor. *)
Variable GetMachineTypeInfo : string → error + awsup.MachineTypeInfo.

(** The call [awsup.GetMachineTypeInfo(name)], logged. *)
Definition call_GetMachineTypeInfo (name : string)
  : io awsup.MachineTypeInfo :=
  (match GetMachineTypeInfo name with
   | inl err => Err err
   | inr info => Ok info
   end, [CallGetMachineTypeInfo name]).

(** One turn of the loop of [buildEphemeralDevices]. *)
Definition add_ephemeral (blockDeviceMappings : gmap string awstasks.BlockDeviceMapping)
    (ed : awsup.EphemeralDevice) : gmap string awstasks.BlockDeviceMapping :=
  let m := {| awstasks.VirtualName := fi.String (awsup.EphemeralVirtualName ed);
              awstasks.EbsDeleteOnTermination := None;
              awstasks.EbsVolumeSize := None;
              awstasks.EbsVolumeType := None;
              awstasks.EbsVolumeIops := None |} in
  <[awsup.DeviceName ed := m]> blockDeviceMappings.

Definition buildEphemeralDevices (instanceTypeName : option string)
  : io (gmap string awstasks.BlockDeviceMapping) :=
  match instanceTypeName with
  | None => io_fail (fi.RequiredField "InstanceType")
  | Some name =>
      let* instanceType := call_GetMachineTypeInfo name in
      io_ret (foldl add_ephemeral ∅ (awsup.EphemeralDevices instanceType))
  end.

End BlockDevices.

(** The call [cloud.ResolveImage(name)], logged; the Go pair is handed on as
    it is. *)
Definition call_ResolveImage (cloud : awsup.AWSCloud) (name : string)
  : io (option awsup.Image * option error) :=
  (Ok (awsup.ResolveImage cloud name), [CallResolveImage name]).

Definition resolveImage (cloud : awsup.AWSCloud) (name : string)
  : io awsup.Image :=
  let* r := call_ResolveImage cloud name in
  match r with
  | (_, Some err) =>
      io_fail (Errorf "spotinst: unable to resolve image %q: %v"
                 [ArgString name; ArgError err])
  | (None, None) =>
      io_fail (Errorf "spotinst: unable to resolve image %q: not found"
                 [ArgString name])
  | (Some image, None) => io_ret image
  end.

(** [opts] is a pointer the callers always set; it is read after the image
    has been resolved. *)
Definition buildRootDevice (cloud : awsup.AWSCloud) (imageID : option string)
    (opts : RootVolumeOpts) : io (gmap string awstasks.BlockDeviceMapping) :=
  let* image := resolveImage cloud (fi.StringValue imageID) in
  let rootDeviceName := fi.StringValue (awsup.RootDeviceName image) in
  let blockDeviceMappings : gmap string awstasks.BlockDeviceMapping := ∅ in
  let rootDeviceMapping :=
    {| awstasks.VirtualName := None;
       awstasks.EbsDeleteOnTermination := fi.Bool true;
       awstasks.EbsVolumeSize :=
         fi.Int64 (int64_of_int32 (fi.Int32Value (Size opts)));
       awstasks.EbsVolumeType := Type_ opts;
       awstasks.EbsVolumeIops :=
         (* The parameter IOPS is not supported for gp2 volumes. *)
         if decide (IOPS opts ≠ None ∧ fi.StringValue (Type_ opts) ≠ "gp2")
         then fi.Int64 (int64_of_int32 (fi.Int32Value (IOPS opts)))
         else None |} in
  io_ret (<[rootDeviceName := rootDeviceMapping]> blockDeviceMappings).

(** [i] is a pointer taken from a map of mappings, never nil there. *)
Definition buildBlockDeviceMapping (deviceName : string)
    (i : awstasks.BlockDeviceMapping) : awseg.BlockDeviceMapping :=
  let EBS :=
    if decide (awstasks.EbsDeleteOnTermination i ≠ None
               ∨ awstasks.EbsVolumeSize i ≠ None
               ∨ awstasks.EbsVolumeType i ≠ None)
    then Some
      {| awseg.DeleteOnTermination := awstasks.EbsDeleteOnTermination i;
         awseg.VolumeSize :=
           fi.Int (int_of_int64 (fi.Int64Value (awstasks.EbsVolumeSize i)));
         awseg.VolumeType := awstasks.EbsVolumeType i;
         awseg.IOPS :=
           (* The parameter IOPS is not supported for gp2 volumes. *)
           if decide (awstasks.EbsVolumeIops i ≠ None
                      ∧ fi.StringValue (awstasks.EbsVolumeType i) ≠ "gp2")
           then fi.Int (int_of_int64 (fi.Int64Value (awstasks.EbsVolumeIops i)))
           else None |}
    else None in
  {| awseg.DeviceName := fi.String deviceName;
     awseg.VirtualName := awstasks.VirtualName i;
     awseg.EBS_ := EBS |}.

(** ** Tags and labels *)

Section TagsAndLabels.

(** The order in which [range] visits the entries of a map.  Go leaves it
    unspecified; it is an enumeration of the entries. *)
Variable map_range : gmap string string → list (string * string).

Definition buildElastigroupTags (tags : gmap string string)
  : slice awseg.Tag :=
  foldl (λ out '(key, value),
           append out {| awseg.TagKey := fi.String key;
                         awseg.TagValue := fi.String value |})
        (make_slice (size tags)) (map_range tags).

Definition buildOceanTags (tags : gmap string string) : slice awsoc.Tag :=
  foldl (λ out '(key, value),
           append out {| awsoc.TagKey := fi.String key;
                         awsoc.TagValue := fi.String value |})
        (make_slice (size tags)) (map_range tags).

Definition buildAutoScaleLabels (labels : gmap string string)
  : slice awseg.AutoScaleLabel :=
  foldl (λ out '(key, value),
           append out {| awseg.LabelKey := fi.String key;
                         awseg.LabelValue := fi.String value |})
        (make_slice (size labels)) (map_range labels).

Definition buildOceanLabels (labels : gmap string string)
  : slice awsoc.Label :=
  foldl (λ out '(key, value),
           append out {| awsoc.LabelKey := fi.String key;
                         awsoc.LabelValue := fi.String value |})
        (make_slice (size labels)) (map_range labels).

End TagsAndLabels.

(** ** Taints *)

(** Go's [regexp] package, for patterns that are a sequence of literal bytes
    and named groups around [.+].  Matching is leftmost-first: the match
    starts as early as possible and, among the matches starting there, is
    the one a backtracking matcher finds first, every [.+] trying its
    longest extent first.  [.] matches any byte but a newline.  (The pattern
    is matched on runes in Go; on bytes the groups are the same, since the
    literals are ASCII and never occur inside a multi-byte rune.) *)
Module regexp.

Inductive item : Type :=
| Lit (c : ascii)
| NamedDotPlus (name : string).

Definition Regexp : Type := list item.

Definition is_newline (c : ascii) : bool := Ascii.eqb c "010"%char.

(** Greedy [.+] followed by the continuation [k], which receives the text
    taken by [.+] and the rest of the input. *)
Fixpoint dot_plus {R} (k : string → string → option R) (s : string)
  : option R :=
  match s with
  | EmptyString => None
  | String c s' =>
      if is_newline c then None
      else match dot_plus (λ taken rest, k (String c taken) rest) s' with
           | Some r => Some r
           | None => k (String c EmptyString) s'
           end
  end.

(** A match of [re] at the start of [s]: the matched text and the texts of
    the groups, in order. *)
Fixpoint match_here (re : Regexp) (s : string)
  : option (string * list string) :=
  match re with
  | [] => Some (EmptyString, [])
  | Lit c :: re' =>
      match s with
      | EmptyString => None
      | String c' s' =>
          if Ascii.eqb c c'
          then match match_here re' s' with
               | Some (whole, subs) => Some (String c' whole, subs)
               | None => None
               end
          else None
      end
  | NamedDotPlus _ :: re' =>
      dot_plus (λ taken rest,
                  match match_here re' rest with
                  | Some (whole, subs) => Some (taken +:+ whole, taken :: subs)
                  | None => None
                  end) s
  end.

(** The leftmost match. *)
Fixpoint find (re : Regexp) (s : string) : option (string * list string) :=
  match match_here re s with
  | Some m => Some m
  | None =>
      match s with
      | EmptyString => None
      | String _ s' => find re s'
      end
  end.

(** [re.FindStringSubmatch(s)]: the matched text followed by the groups, or
    nil (here the empty list) when there is no match. *)
Definition FindStringSubmatch (re : Regexp) (s : string) : list string :=
  match find re s with
  | Some (whole, subs) => whole :: subs
  | None => []
  end.

(** [re.SubexpNames()]: the empty name of the whole match, then the names of
    the groups. *)
Definition SubexpNames (re : Regexp) : list string :=
  EmptyString ::
  omap (λ it, match it with NamedDotPlus n => Some n | Lit _ => None end) re.

End regexp.

(** The pattern [(?P<Key>.+)\=(?P<Value>.+)\:(?P<Effect>.+)] as
    [regexp.Compile] parses it; compiling it does not fail. *)
Definition taint_re : regexp.Regexp :=
  [regexp.NamedDotPlus "Key"; regexp.Lit "="%char;
   regexp.NamedDotPlus "Value"; regexp.Lit ":"%char;
   regexp.NamedDotPlus "Effect"].

(** The pattern from its second and from its third group on. *)
Definition re_effect : regexp.Regexp := [regexp.NamedDotPlus "Effect"].
Definition re_value : regexp.Regexp :=
  regexp.NamedDotPlus "Value" :: regexp.Lit ":"%char :: re_effect.

(** [new(awsoc.Taint)]. *)
Definition new_Taint : awsoc.Taint :=
  {| awsoc.Key := None; awsoc.Value := None; awsoc.Effect := None |}.

(** The [switch name] of the inner loop; [match[i]] panics out of range. *)
Definition set_named (name : string) (match_ : list string) (i : nat)
    (taint : awsoc.Taint) : outcome awsoc.Taint :=
  if decide (name = "Key") then
    match match_ !! i with
    | Some v => Ok {| awsoc.Key := fi.String v;
                      awsoc.Value := awsoc.Value taint;
                      awsoc.Effect := awsoc.Effect taint |}
    | None => Panic
    end
  else if decide (name = "Value") then
    match match_ !! i with
    | Some v => Ok {| awsoc.Key := awsoc.Key taint;
                      awsoc.Value := fi.String v;
                      awsoc.Effect := awsoc.Effect taint |}
    | None => Panic
    end
  else if decide (name = "Effect") then
    match match_ !! i with
    | Some v => Ok {| awsoc.Key := awsoc.Key taint;
                      awsoc.Value := awsoc.Value taint;
                      awsoc.Effect := fi.String v |}
    | None => Panic
    end
  else Ok taint.

(** The inner loop [for i, name := range re.SubexpNames()], from index [i]
    on. *)
Fixpoint fill_taint (names : list string) (i : nat) (match_ : list string)
    (taint : awsoc.Taint) : outcome awsoc.Taint :=
  match names with
  | [] => Ok taint
  | name :: names' =>
      if bool_decide (0 < i ∧ i ≤ length match_)%nat then
        match set_named name match_ i taint with
        | Ok taint' => fill_taint names' (S i) match_ taint'
        | Err e => Err e
        | Panic => Panic
        end
      else fill_taint names' (S i) match_ taint
  end.

(** The taint record built for one string, before the completeness test. *)
Definition parse_taint (t : string) : outcome awsoc.Taint :=
  fill_taint (regexp.SubexpNames taint_re) 0
             (regexp.FindStringSubmatch taint_re t) new_Taint.

Definition taint_complete (taint : awsoc.Taint) : Prop :=
  awsoc.Key taint ≠ None ∧ awsoc.Value taint ≠ None
  ∧ awsoc.Effect taint ≠ None.

Global Instance taint_complete_dec taint : Decision (taint_complete taint).
Proof. unfold taint_complete. apply _. Defined.

(** The outer loop [for _, t := range taints], [out] being the slice built
    so far. *)
Fixpoint buildOceanTaints_loop (taints : list string)
    (out : slice awsoc.Taint) : outcome (slice awsoc.Taint) :=
  match taints with
  | [] => Ok out
  | t :: taints' =>
      match parse_taint t with
      | Ok taint =>
          if decide (taint_complete taint)
          then buildOceanTaints_loop taints' (append out taint)
          else buildOceanTaints_loop taints' out
      | Err e => Err e
      | Panic => Panic
      end
  end.

(** [var out []*awsoc.Taint] starts as the nil slice. *)
Definition buildOceanTaints (taints : list string)
  : outcome (slice awsoc.Taint) :=
  buildOceanTaints_loop taints None.

(** ** Subnets *)

Module utils.

(** Modelled from the spec: [utils.StringSlicesEqualIgnoreOrder] of package
    [utils], which is not among the sources: it "compares the two
    identifier sets for equality ignoring order and ignoring duplicates'
    multiplicity (set semantics, not sequence semantics)". *)
Definition StringSlicesEqualIgnoreOrder (l r : list string) : bool :=
  bool_decide (list_to_set l =@{gset string} list_to_set r).

End utils.

(** The first loop of [subnetSlicesEqualIgnoreOrder]: [*s.ID] panics on a
    nil identifier. *)
Fixpoint collect_left (l : list awstasks.Subnet) (lIDs : list string)
  : outcome (list string) :=
  match l with
  | [] => Ok lIDs
  | s :: l' =>
      match awstasks.ID s with
      | Some id => collect_left l' (lIDs ++ [id])
      | None => Panic
      end
  end.

(** The second loop: [None] is the early [return false] on a nil
    identifier. *)
Fixpoint collect_right (r : list awstasks.Subnet) (rIDs : list string)
  : option (list string) :=
  match r with
  | [] => Some rIDs
  | s :: r' =>
      match awstasks.ID s with
      | Some id => collect_right r' (rIDs ++ [id])
      | None => None
      end
  end.

(** The slices hold pointers to subnet tasks, none of them nil. *)
Definition subnetSlicesEqualIgnoreOrder (l r : list awstasks.Subnet)
  : outcome bool :=
  match collect_left l [] with
  | Ok lIDs =>
      match collect_right r [] with
      | Some rIDs => Ok (utils.StringSlicesEqualIgnoreOrder lIDs rIDs)
      | None => Ok false
      end
  | Err e => Err e
  | Panic => Panic
  end.

(** ** Orientation *)

(** [type Orientation string] and its four constants. *)
Definition Orientation : Type := string.

Definition OrientationBalanced : Orientation := "balanced".
Definition OrientationCost : Orientation := "costOriented".
Definition OrientationAvailability : Orientation := "availabilityOriented".
Definition OrientationEqualZoneDistribution : Orientation :=
  "equalAzDistribution".

Definition normalizeOrientation (orientation : option string) : Orientation :=
  let out := OrientationBalanced in
  match orientation with
  | None => out (* Fast path. *)
  | Some o =>
      if decide (o = "cost") then OrientationCost
      else if decide (o = "availability") then OrientationAvailability
      else if decide (o = "equal-distribution")
           then OrientationEqualZoneDistribution
      else out
  end.

(** ** Sample inputs *)

(** A cloud whose image lookup fails with [boom]. *)
Definition boom : error := OtherError "RequestLimitExceeded".

Definition failing_cloud : awsup.AWSCloud :=
  {| awsup.ResolveImage := λ _, (None, Some boom) |}.

(** A cloud that knows every image, with root device [/dev/xvda]. *)
Definition xvda_cloud : awsup.AWSCloud :=
  {| awsup.ResolveImage :=
       λ _, (Some {| awsup.RootDeviceName := Some "/dev/xvda" |}, None) |}.

Definition gp2_opts : RootVolumeOpts :=
  {| Type_ := Some "gp2"; Size := Some 64; IOPS := Some 3000 |}.

Definition io1_opts : RootVolumeOpts :=
  {| Type_ := Some "io1"; Size := Some 64; IOPS := Some 3000 |}.

(** A catalogue without any machine type. *)
Definition empty_catalogue (name : string) : error + awsup.MachineTypeInfo :=
  inl (OtherError ("unknown machine type " +:+ name)).

(** A catalogue in which every machine type has three descriptors, two of
    them for the same device. *)
Definition three_disks : awsup.MachineTypeInfo :=
  {| awsup.EphemeralDevices :=
       [ {| awsup.DeviceName := "/dev/sdc";
            awsup.EphemeralVirtualName := "ephemeral0" |};
         {| awsup.DeviceName := "/dev/sdd";
            awsup.EphemeralVirtualName := "ephemeral1" |};
         {| awsup.DeviceName := "/dev/sdc";
            awsup.EphemeralVirtualName := "ephemeral2" |} ] |}.

Definition disk_catalogue (name : string) : error + awsup.MachineTypeInfo :=
  inr three_disks.

(** An internal mapping with nothing but a volume type. *)
Definition typed_mapping : awstasks.BlockDeviceMapping :=
  {| awstasks.VirtualName := Some "ephemeral0";
     awstasks.EbsDeleteOnTermination := None;
     awstasks.EbsVolumeSize := None;
     awstasks.EbsVolumeType := Some "io1";
     awstasks.EbsVolumeIops := Some 3000 |}.

(** Subnets with the given identifiers; [subnet None] has none. *)
Definition subnet (id : option string) : awstasks.Subnet :=
  {| awstasks.ID := id |}.

(** ** Views used by the statements *)

(** A tag or label record seen as its pair of pointers. *)
Definition eg_tag_pair (t : awseg.Tag) : option string * option string :=
  (awseg.TagKey t, awseg.TagValue t).
Definition oc_tag_pair (t : awsoc.Tag) : option string * option string :=
  (awsoc.TagKey t, awsoc.TagValue t).
Definition eg_label_pair (t : awseg.AutoScaleLabel)
  : option string * option string :=
  (awseg.LabelKey t, awseg.LabelValue t).
Definition oc_label_pair (t : awsoc.Label) : option string * option string :=
  (awsoc.LabelKey t, awsoc.LabelValue t).

(** [pairs] lists the entries of [tags]: as many pairs as the map has keys,
    and a pair is listed exactly when it is an entry of the map. *)
Definition mirrors (tags : gmap string string)
    (pairs : list (option string * option string)) : Prop :=
  length pairs = size tags
  ∧ ∀ p, p ∈ pairs ↔ ∃ k v, p = (Some k, Some v) ∧ tags !! k = Some v.

(** The identifiers of a subnet slice, nil ones included. *)
Definition subnet_ids (l : list awstasks.Subnet) : list (option string) :=
  awstasks.ID <$> l.

(** Equality of two collections as sets: the same members, whatever their
    order and their number of occurrences. *)
Definition same_members {A} (l r : list A) : Prop := ∀ x, x ∈ l ↔ x ∈ r.

(** The mapping [buildEphemeralDevices] stores for a descriptor. *)
Definition ephemeral_mapping (ed : awsup.EphemeralDevice)
  : awstasks.BlockDeviceMapping :=
  {| awstasks.VirtualName := Some (awsup.EphemeralVirtualName ed);
     awstasks.EbsDeleteOnTermination := None;
     awstasks.EbsVolumeSize := None;
     awstasks.EbsVolumeType := None;
     awstasks.EbsVolumeIops := None |}.

(** A pair of pointers read back as a map entry. *)
Definition pair_entry (p : option string * option string) : string * string :=
  (fi.StringValue p.1, fi.StringValue p.2).

(** The string [key=value:effect]. *)
Definition taint_string (k v e : string) : string :=
  k +:+ "=" +:+ v +:+ ":" +:+ e.

(** [pairs] can be read back into [m]: no key is listed twice, and the
    pairs, taken as entries, make up [m]. *)
Definition reads_back (m : gmap string string)
    (pairs : list (option string * option string)) : Prop :=
  NoDup (pairs.*1) ∧ list_to_map (pair_entry <$> pairs) = m.

(** Occurrence of the byte [c] in a string. *)
Fixpoint contains (c : ascii) (s : string) : bool :=
  match s with
  | EmptyString => false
  | String c' s' => Ascii.eqb c' c || contains c s'
  end.

(** A string without a newline. *)
Definition single_line (s : string) : Prop := contains "010"%char s = false.

(** The record [buildOceanTaints] keeps for one string, if it keeps one. *)
Definition complete_taint (t : string) : option awsoc.Taint :=
  match parse_taint t with
  | Ok taint => if decide (taint_complete taint) then Some taint else None
  | _ => None
  end.

Definition kept_taints (taints : list string) : list awsoc.Taint :=
  omap complete_taint taints.

(** [out] after appending the elements of [l] one by one; a nil slice stays
    nil when there is nothing to append. *)
Definition extend {A} (out : slice A) (l : list A) : slice A :=
  match l with
  | [] => out
  | _ => Some (slice_elems out ++ l)
  end.

(* ===================================================================== *)
(** * Part IV: the specification, settled *)
(* ===================================================================== *)

(** ** Integers and pointers *)

Lemma wrap_in_range bits z : 0 < bits → in_range bits z → wrap bits z = z.
Proof.
  intros Hb [Hlo Hhi]. unfold wrap.
  assert (Hpow : 2 ^ bits = 2 * 2 ^ (bits - 1)).
  { rewrite <- Z.pow_succ_r by lia. f_equal. lia. }
  rewrite Z.mod_small; lia.
Qed.

Lemma int64_of_int32_id z : in_range 32 z → int64_of_int32 z = z.
Proof.
  intros [Hlo Hhi]. apply wrap_in_range; [lia |].
  unfold in_range in *. change (2 ^ (32 - 1)) with 2147483648 in *.
  change (2 ^ (64 - 1)) with 9223372036854775808. lia.
Qed.

Lemma StringValue_ne (p : option string) (s : string) :
  s ≠ "" → (fi.StringValue p ≠ s ↔ p ≠ Some s).
Proof.
  intros Hs. destruct p as [x|]; simpl.
  - split; congruence.
  - split; [congruence | intros _ E; by apply Hs].
Qed.

Lemma is_Some_ne_None {A} (o : option A) : o ≠ None ↔ is_Some o.
Proof. by rewrite not_eq_None_Some. Qed.

(** ** The root device *)

Lemma resolveImage_found cloud name image :
  awsup.ResolveImage cloud name = (Some image, None) →
  resolveImage cloud name = (Ok image, [CallResolveImage name]).
Proof. intros H. unfold resolveImage, call_ResolveImage. simpl. by rewrite H. Qed.

Lemma resolveImage_error cloud name im err :
  awsup.ResolveImage cloud name = (im, Some err) →
  resolveImage cloud name =
    (Err (Errorf "spotinst: unable to resolve image %q: %v"
            [ArgString name; ArgError err]), [CallResolveImage name]).
Proof.
  intros H. unfold resolveImage, call_ResolveImage. simpl. rewrite H.
  by destruct im.
Qed.

Lemma resolveImage_not_found cloud name :
  awsup.ResolveImage cloud name = (None, None) →
  resolveImage cloud name =
    (Err (Errorf "spotinst: unable to resolve image %q: not found"
            [ArgString name]), [CallResolveImage name]).
Proof. intros H. unfold resolveImage, call_ResolveImage. simpl. by rewrite H. Qed.

(** [buildRootDevice] hands the outcome of [resolveImage] on when that is not
    a success. *)
Lemma buildRootDevice_failure cloud imageID opts :
  (∀ image, fst (resolveImage cloud (fi.StringValue imageID)) ≠ Ok image) →
  fst (buildRootDevice cloud imageID opts) =
    match fst (resolveImage cloud (fi.StringValue imageID)) with
    | Ok _ => Panic
    | Err e => Err e
    | Panic => Panic
    end.
Proof.
  intros H. unfold buildRootDevice, io_bind.
  destruct (resolveImage cloud (fi.StringValue imageID)) as [[image|e|] t];
    simpl in *; [by destruct (H image) | done | done].
Qed.

(** C1.  When the image resolves, [buildRootDevice] returns a map with exactly
    one entry, under the root device name of the image; the mapping deletes
    on termination, takes its size and type from the options, and carries
    IOPS exactly when the options give IOPS and the type is not gp2, in
    which case it is the IOPS of the options. *)
Theorem buildRootDevice_single_mapping cloud imageID opts image :
  awsup.ResolveImage cloud (fi.StringValue imageID) = (Some image, None) →
  (∀ n, Size opts = Some n → in_range 32 n) →
  (∀ n, IOPS opts = Some n → in_range 32 n) →
  ∃ m bdm,
    fst (buildRootDevice cloud imageID opts) = Ok bdm
    ∧ bdm = {[ fi.StringValue (awsup.RootDeviceName image) := m ]}
    ∧ size bdm = 1%nat
    ∧ awstasks.EbsDeleteOnTermination m = Some true
    ∧ awstasks.EbsVolumeSize m = Some (fi.Int32Value (Size opts))
    ∧ awstasks.EbsVolumeType m = Type_ opts
    ∧ (is_Some (awstasks.EbsVolumeIops m)
       ↔ is_Some (IOPS opts) ∧ Type_ opts ≠ Some "gp2")
    ∧ (is_Some (awstasks.EbsVolumeIops m) →
       awstasks.EbsVolumeIops m = IOPS opts).
Proof.
  intros Himg Hsize Hiops.
  unfold buildRootDevice. rewrite (resolveImage_found _ _ _ Himg).
  cbn [io_bind io_ret fst].
  eexists _, _. split; [reflexivity |].
  split; [by rewrite insert_empty |].
  split; [by rewrite insert_empty, map_size_singleton |].
  cbn [awstasks.EbsDeleteOnTermination awstasks.EbsVolumeSize
       awstasks.EbsVolumeType awstasks.EbsVolumeIops].
  split; [done |].
  split.
  { unfold fi.Int64. f_equal. apply int64_of_int32_id.
    destruct (Size opts) as [n|] eqn:E; simpl; [by apply Hsize |].
    unfold in_range. change (2 ^ (32 - 1)) with 2147483648. lia. }
  split; [done |].
  case_decide as Hc.
  - destruct Hc as [Hi Ht]. apply is_Some_ne_None in Hi.
    apply StringValue_ne in Ht; [| done].
    split; [split; [intros _; by split | intros _; by eexists] |].
    intros _. destruct Hi as [n Hn]. rewrite Hn. simpl. unfold fi.Int64.
    f_equal. apply int64_of_int32_id. by apply Hiops.
  - split; [split |].
    + intros [? ?]; done.
    + intros [Hi Ht]. exfalso. apply Hc. split.
      * by apply is_Some_ne_None.
      * by apply StringValue_ne.
    + intros [? ?]; done.
Qed.

Lemma buildRootDevice_single_mapping_witness :
  ∃ m bdm,
    fst (buildRootDevice xvda_cloud (Some "ami-1") io1_opts) = Ok bdm
    ∧ bdm = {[ "/dev/xvda" := m ]}
    ∧ size bdm = 1%nat
    ∧ awstasks.EbsDeleteOnTermination m = Some true
    ∧ awstasks.EbsVolumeSize m = Some 64
    ∧ awstasks.EbsVolumeType m = Some "io1"
    ∧ (is_Some (awstasks.EbsVolumeIops m)
       ↔ is_Some (Some 3000) ∧ Some "io1" ≠ Some "gp2")
    ∧ (is_Some (awstasks.EbsVolumeIops m) →
       awstasks.EbsVolumeIops m = Some 3000).
Proof.
  apply (buildRootDevice_single_mapping xvda_cloud (Some "ami-1") io1_opts
           {| awsup.RootDeviceName := Some "/dev/xvda" |}).
  - reflexivity.
  - intros n [= <-]. unfold in_range. simpl. lia.
  - intros n [= <-]. unfold in_range. simpl. lia.
Defined.

(** The two instances the specification lists: gp2 with 3000 IOPS carries no
    IOPS, io1 with 3000 IOPS carries 3000. *)
Example buildRootDevice_gp2_3000 :
  ∃ m, fst (buildRootDevice xvda_cloud (Some "ami-1") gp2_opts)
       = Ok {[ "/dev/xvda" := m ]}
       ∧ awstasks.EbsVolumeIops m = None.
Proof. eexists. split; [vm_compute; reflexivity | reflexivity]. Qed.

Example buildRootDevice_io1_3000 :
  ∃ m, fst (buildRootDevice xvda_cloud (Some "ami-1") io1_opts)
       = Ok {[ "/dev/xvda" := m ]}
       ∧ awstasks.EbsVolumeIops m = Some 3000.
Proof. eexists. split; [vm_compute; reflexivity | reflexivity]. Qed.

(** ** Errors of the collaborators *)

(** C3, as stated, fails for the root device: the error of the image lookup
    does not come back as it is, it comes back inside a new error that names
    the image. *)
Lemma buildRootDevice_error_not_unchanged :
  awsup.ResolveImage failing_cloud (fi.StringValue (Some "ami-1"))
    = (None, Some boom)
  ∧ fst (buildRootDevice failing_cloud (Some "ami-1") io1_opts)
    = Err (Errorf "spotinst: unable to resolve image %q: %v"
             [ArgString "ami-1"; ArgError boom])
  ∧ fst (buildRootDevice failing_cloud (Some "ami-1") io1_opts) ≠ Err boom.
Proof. split; [reflexivity |]. split; [reflexivity | discriminate]. Qed.

(** An error is never the [Errorf] that has it as an argument. *)
Lemma Errorf_wraps format name e :
  Errorf format [ArgString name; ArgError e] ≠ e.
Proof.
  intros H. apply (f_equal error_size) in H. simpl in H. lia.
Qed.

(** C3, amended.  [buildEphemeralDevices] returns the error of the machine
    type catalogue as it is, after that single call.  [buildRootDevice]
    returns the error of [resolveImage] as it is; that error is a new one,
    formatted from the image name and the error of the image lookup (and so
    never that error itself), or the "not found" error when the lookup gives
    neither an image nor an error. *)
Theorem collaborator_errors GetMachineTypeInfo cloud imageID opts :
  (∀ name e,
     GetMachineTypeInfo name = inl e →
     buildEphemeralDevices GetMachineTypeInfo (Some name)
       = (Err e, [CallGetMachineTypeInfo name]))
  ∧ (∀ e, fst (resolveImage cloud (fi.StringValue imageID)) = Err e →
          fst (buildRootDevice cloud imageID opts) = Err e)
  ∧ (∀ im e,
       awsup.ResolveImage cloud (fi.StringValue imageID) = (im, Some e) →
       fst (buildRootDevice cloud imageID opts)
         = Err (Errorf "spotinst: unable to resolve image %q: %v"
                  [ArgString (fi.StringValue imageID); ArgError e]))
  ∧ (∀ im e,
       awsup.ResolveImage cloud (fi.StringValue imageID) = (im, Some e) →
       fst (buildRootDevice cloud imageID opts) ≠ Err e)
  ∧ (awsup.ResolveImage cloud (fi.StringValue imageID) = (None, None) →
     fst (buildRootDevice cloud imageID opts)
       = Err (Errorf "spotinst: unable to resolve image %q: not found"
                [ArgString (fi.StringValue imageID)])).
Proof.
  assert (Hwrap : ∀ im e,
    awsup.ResolveImage cloud (fi.StringValue imageID) = (im, Some e) →
    fst (buildRootDevice cloud imageID opts)
      = Err (Errorf "spotinst: unable to resolve image %q: %v"
               [ArgString (fi.StringValue imageID); ArgError e])).
  { intros im e H. pose proof (resolveImage_error _ _ _ _ H) as R.
    rewrite buildRootDevice_failure; rewrite R; simpl; congruence. }
  split; [| split; [| split; [| split]]].
  - intros name e H. unfold buildEphemeralDevices, call_GetMachineTypeInfo.
    simpl. by rewrite H.
  - intros e H. rewrite buildRootDevice_failure; rewrite H; congruence.
  - exact Hwrap.
  - intros im e H. rewrite (Hwrap im e H). intros [= E].
    by apply Errorf_wraps in E.
  - intros H. pose proof (resolveImage_not_found _ _ H) as R.
    rewrite buildRootDevice_failure; rewrite R; simpl; congruence.
Qed.

Lemma collaborator_errors_witness :
  buildEphemeralDevices empty_catalogue (Some "m5.large")
    = (Err (OtherError "unknown machine type m5.large"),
       [CallGetMachineTypeInfo "m5.large"])
  ∧ fst (buildRootDevice failing_cloud (Some "ami-1") gp2_opts)
    = Err (Errorf "spotinst: unable to resolve image %q: %v"
             [ArgString "ami-1"; ArgError boom]).
Proof.
  destruct (collaborator_errors empty_catalogue failing_cloud (Some "ami-1")
              gp2_opts) as (Heph & _ & Hroot & _ & _).
  split.
  - apply (Heph "m5.large"). reflexivity.
  - apply (Hroot None boom). reflexivity.
Defined.

(** ** Ephemeral devices *)

(** C6.  Without an instance type, [buildEphemeralDevices] fails with the
    required-field error for "InstanceType" and its call log is empty: the
    machine type catalogue is not asked. *)
Theorem buildEphemeralDevices_nil GetMachineTypeInfo :
  buildEphemeralDevices GetMachineTypeInfo None
    = (Err (fi.RequiredField "InstanceType"), []).
Proof. reflexivity. Qed.

(** With an instance type the catalogue is asked exactly once, for that
    type. *)
Lemma buildEphemeralDevices_calls GetMachineTypeInfo name :
  snd (buildEphemeralDevices GetMachineTypeInfo (Some name))
    = [CallGetMachineTypeInfo name].
Proof.
  unfold buildEphemeralDevices, call_GetMachineTypeInfo, io_bind. simpl.
  destruct (GetMachineTypeInfo name); reflexivity.
Qed.

(** ** Conversion to the wire format *)

(** C4.  [buildBlockDeviceMapping] copies the device name and the virtual
    name, attaches an EBS record exactly when delete-on-termination, volume
    size or volume type is set (IOPS does not count), and the attached
    record carries IOPS exactly when the input has IOPS and its type is not
    gp2. *)
Theorem buildBlockDeviceMapping_shape deviceName (i : awstasks.BlockDeviceMapping) :
  let o := buildBlockDeviceMapping deviceName i in
  awseg.DeviceName o = Some deviceName
  ∧ awseg.VirtualName o = awstasks.VirtualName i
  ∧ (is_Some (awseg.EBS_ o)
     ↔ is_Some (awstasks.EbsDeleteOnTermination i)
       ∨ is_Some (awstasks.EbsVolumeSize i)
       ∨ is_Some (awstasks.EbsVolumeType i))
  ∧ (awstasks.EbsDeleteOnTermination i = None →
     awstasks.EbsVolumeSize i = None →
     awstasks.EbsVolumeType i = None →
     awseg.EBS_ o = None)
  ∧ (∀ ebs, awseg.EBS_ o = Some ebs →
       (is_Some (awseg.IOPS ebs)
        ↔ is_Some (awstasks.EbsVolumeIops i)
          ∧ awstasks.EbsVolumeType i ≠ Some "gp2")).
Proof.
  cbn zeta. unfold buildBlockDeviceMapping.
  cbn [awseg.DeviceName awseg.VirtualName awseg.EBS_].
  split; [done |]. split; [done |].
  rewrite <- !is_Some_ne_None.
  split; [| split].
  - case_decide as Hc.
    + split; [done | intros _; discriminate].
    + split; [intros H; by destruct H | intros H; by destruct (Hc H)].
  - intros H1 H2 H3. case_decide as Hc; [| done].
    destruct Hc as [?|[?|?]]; congruence.
  - intros ebs. case_decide as Hc; [| done]. intros [= <-].
    cbn [awseg.IOPS]. rewrite <- !is_Some_ne_None. unfold fi.Int.
    case_decide as Hi.
    + destruct Hi as [Hi Ht]. apply StringValue_ne in Ht; [| done].
      split; [done | intros _; discriminate].
    + split; [intros H; by destruct H |].
      intros [Hi' Ht]. exfalso. apply Hi. split; [done |].
      by apply StringValue_ne.
Qed.

Lemma buildBlockDeviceMapping_shape_witness :
  let o := buildBlockDeviceMapping "/dev/sdb" awstasks.BlockDeviceMapping_zero in
  awseg.DeviceName o = Some "/dev/sdb"
  ∧ awseg.VirtualName o = None
  ∧ awseg.EBS_ o = None
  ∧ (is_Some (awseg.IOPS
       {| awseg.DeleteOnTermination := None; awseg.VolumeType := Some "io1";
          awseg.VolumeSize := Some 0; awseg.IOPS := Some 3000 |})
     ↔ is_Some (Some 3000) ∧ Some "io1" ≠ Some "gp2").
Proof.
  intros o.
  destruct (buildBlockDeviceMapping_shape "/dev/sdb"
              awstasks.BlockDeviceMapping_zero) as (Hd & Hv & _ & Hnone & _).
  destruct (buildBlockDeviceMapping_shape "/dev/sdb" typed_mapping)
    as (_ & _ & _ & _ & Hiops).
  split; [exact Hd |]. split; [exact Hv |].
  split; [apply Hnone; reflexivity |].
  apply (Hiops _). reflexivity.
Defined.

(** C10.  In an attached EBS record the volume size is always present, and
    is 0 when the input has none, while delete-on-termination and the volume
    type are the input's pointers, nil when those are nil. *)
Theorem buildBlockDeviceMapping_volume_size deviceName
    (i : awstasks.BlockDeviceMapping) ebs :
  awseg.EBS_ (buildBlockDeviceMapping deviceName i) = Some ebs →
  is_Some (awseg.VolumeSize ebs)
  ∧ awseg.VolumeSize ebs
    = Some (int_of_int64 (fi.Int64Value (awstasks.EbsVolumeSize i)))
  ∧ (awstasks.EbsVolumeSize i = None → awseg.VolumeSize ebs = Some 0)
  ∧ awseg.DeleteOnTermination ebs = awstasks.EbsDeleteOnTermination i
  ∧ awseg.VolumeType ebs = awstasks.EbsVolumeType i.
Proof.
  unfold buildBlockDeviceMapping. cbn [awseg.EBS_].
  case_decide as Hc; [| done]. intros [= <-].
  cbn [awseg.VolumeSize awseg.DeleteOnTermination awseg.VolumeType].
  split; [by eexists |]. split; [done |].
  split; [by intros -> | done].
Qed.

Lemma buildBlockDeviceMapping_volume_size_witness :
  let ebs := {| awseg.DeleteOnTermination := None;
                awseg.VolumeType := Some "io1";
                awseg.VolumeSize := Some 0;
                awseg.IOPS := Some 3000 |} in
  awseg.EBS_ (buildBlockDeviceMapping "/dev/sdb" typed_mapping) = Some ebs
  ∧ is_Some (awseg.VolumeSize ebs)
  ∧ awseg.VolumeSize ebs = Some 0
  ∧ awseg.DeleteOnTermination ebs = None
  ∧ awseg.VolumeType ebs = Some "io1".
Proof.
  intros ebs.
  assert (H : awseg.EBS_ (buildBlockDeviceMapping "/dev/sdb" typed_mapping)
              = Some ebs) by reflexivity.
  destruct (buildBlockDeviceMapping_volume_size "/dev/sdb" typed_mapping ebs H)
    as (Hs & _ & H0 & Hd & Ht).
  split; [exact H |]. split; [exact Hs |].
  split; [apply H0; reflexivity |]. split; [exact Hd | exact Ht].
Defined.

(** ** Tags and labels *)

Lemma foldl_append_fmap {A B} (g : slice A → B → slice A) (f : B → A) :
  (∀ out x, g out x = append out (f x)) →
  ∀ (l : list B) (l0 : list A), foldl g (Some l0) l = Some (l0 ++ (f <$> l)).
Proof.
  intros Hg l. induction l as [|x l IH]; intros l0; simpl.
  - by rewrite app_nil_r.
  - rewrite Hg. unfold append. simpl. rewrite IH. by rewrite <- app_assoc.
Qed.

Section TagsAndLabelsSpec.

Variable map_range : gmap string string → list (string * string).

(** [range] visits every entry of the map once, in some order. *)
Hypothesis map_range_entries : ∀ m, map_range m ≡ₚ map_to_list m.

Lemma map_range_empty : map_range ∅ = [].
Proof.
  apply Permutation_nil_r. rewrite map_range_entries.
  by rewrite map_to_list_empty.
Qed.

Lemma mirrors_map_range (tags : gmap string string) :
  mirrors tags ((λ p, (Some p.1, Some p.2)) <$> map_range tags).
Proof.
  split.
  - rewrite length_fmap, map_range_entries. apply length_map_to_list.
  - intros p. rewrite list_elem_of_fmap. split.
    + intros ([k v] & -> & Hin). exists k, v. split; [done |].
      rewrite map_range_entries in Hin. by apply elem_of_map_to_list in Hin.
    + intros (k & v & -> & Hkv). exists (k, v). split; [done |].
      rewrite map_range_entries. by apply elem_of_map_to_list.
Qed.

Lemma buildElastigroupTags_eq tags :
  buildElastigroupTags map_range tags =
    Some ((λ p, {| awseg.TagKey := Some p.1; awseg.TagValue := Some p.2 |})
            <$> map_range tags).
Proof.
  unfold buildElastigroupTags, make_slice.
  erewrite foldl_append_fmap; [reflexivity |]. by intros out [k v].
Qed.

Lemma buildOceanTags_eq tags :
  buildOceanTags map_range tags =
    Some ((λ p, {| awsoc.TagKey := Some p.1; awsoc.TagValue := Some p.2 |})
            <$> map_range tags).
Proof.
  unfold buildOceanTags, make_slice.
  erewrite foldl_append_fmap; [reflexivity |]. by intros out [k v].
Qed.

Lemma buildAutoScaleLabels_eq labels :
  buildAutoScaleLabels map_range labels =
    Some ((λ p, {| awseg.LabelKey := Some p.1; awseg.LabelValue := Some p.2 |})
            <$> map_range labels).
Proof.
  unfold buildAutoScaleLabels, make_slice.
  erewrite foldl_append_fmap; [reflexivity |]. by intros out [k v].
Qed.

Lemma buildOceanLabels_eq labels :
  buildOceanLabels map_range labels =
    Some ((λ p, {| awsoc.LabelKey := Some p.1; awsoc.LabelValue := Some p.2 |})
            <$> map_range labels).
Proof.
  unfold buildOceanLabels, make_slice.
  erewrite foldl_append_fmap; [reflexivity |]. by intros out [k v].
Qed.

(** C8.  Each of the four mappers returns a slice that is not nil, with as
    many records as the map has keys, whose (key, value) pairs are exactly
    the entries of the map; for the empty map the slice is empty. *)
Theorem tag_label_mappers (m : gmap string string) :
  (∃ out, buildElastigroupTags map_range m = Some out
          ∧ mirrors m (eg_tag_pair <$> out)
          ∧ (m = ∅ → out = []))
  ∧ (∃ out, buildOceanTags map_range m = Some out
            ∧ mirrors m (oc_tag_pair <$> out)
            ∧ (m = ∅ → out = []))
  ∧ (∃ out, buildAutoScaleLabels map_range m = Some out
            ∧ mirrors m (eg_label_pair <$> out)
            ∧ (m = ∅ → out = []))
  ∧ (∃ out, buildOceanLabels map_range m = Some out
            ∧ mirrors m (oc_label_pair <$> out)
            ∧ (m = ∅ → out = [])).
Proof.
  pose proof (mirrors_map_range m) as Hm.
  rewrite buildElastigroupTags_eq, buildOceanTags_eq,
    buildAutoScaleLabels_eq, buildOceanLabels_eq.
  repeat split; eexists; (split; [reflexivity |]);
    (split; [rewrite <- list_fmap_compose; exact Hm
            | intros ->; by rewrite map_range_empty]).
Qed.

End TagsAndLabelsSpec.

Lemma tag_label_mappers_witness :
  let m : gmap string string :=
    {[ "Name" := "nodes"; "KubernetesCluster" := "k.example.com" ]} in
  (∃ out, buildElastigroupTags map_to_list m = Some out
          ∧ mirrors m (eg_tag_pair <$> out)
          ∧ (m = ∅ → out = []))
  ∧ (∃ out, buildOceanTags map_to_list m = Some out
            ∧ mirrors m (oc_tag_pair <$> out)
            ∧ (m = ∅ → out = []))
  ∧ (∃ out, buildAutoScaleLabels map_to_list m = Some out
            ∧ mirrors m (eg_label_pair <$> out)
            ∧ (m = ∅ → out = []))
  ∧ (∃ out, buildOceanLabels map_to_list m = Some out
            ∧ mirrors m (oc_label_pair <$> out)
            ∧ (m = ∅ → out = [])).
Proof.
  intros m. apply (tag_label_mappers map_to_list). intros m'. reflexivity.
Defined.

(** The mappers on the empty map, for every iteration order. *)
Lemma mappers_on_empty_map map_range :
  (∀ m, map_range m ≡ₚ map_to_list m) →
  buildElastigroupTags map_range ∅ = Some []
  ∧ buildOceanTags map_range ∅ = Some []
  ∧ buildAutoScaleLabels map_range ∅ = Some []
  ∧ buildOceanLabels map_range ∅ = Some [].
Proof.
  intros H.
  rewrite buildElastigroupTags_eq, buildOceanTags_eq,
    buildAutoScaleLabels_eq, buildOceanLabels_eq.
  by rewrite (map_range_empty _ H).
Qed.

(** ** Strings *)

Lemma append_nil_l (b : string) : "" +:+ b = b.
Proof. reflexivity. Qed.

Lemma append_cons x (a b : string) : String x a +:+ b = String x (a +:+ b).
Proof. reflexivity. Qed.

(** Push the appends of a goal and of the hypotheses inwards. *)
Ltac string_simpl := rewrite ?append_cons, ?append_nil_l in *.

Lemma append_assoc (a b c : string) : (a +:+ b) +:+ c = a +:+ b +:+ c.
Proof. induction a as [|x a IH]; string_simpl; [done | by rewrite IH]. Qed.

Lemma append_nil_r (a : string) : a +:+ "" = a.
Proof. induction a as [|x a IH]; string_simpl; [done | by rewrite IH]. Qed.

Lemma contains_app c (a b : string) :
  contains c (a +:+ b) = contains c a || contains c b.
Proof.
  induction a as [|x a IH]; string_simpl; simpl; [done |].
  by rewrite IH, orb_assoc.
Qed.

(** Two ways of cutting one string: one cut lies before the other. *)
Lemma append_eq_split (a b c d : string) :
  a +:+ b = c +:+ d →
  (∃ m, c = a +:+ m ∧ b = m +:+ d) ∨ (∃ m, a = c +:+ m ∧ d = m +:+ b).
Proof.
  revert c. induction a as [|x a IH]; intros c H.
  - left. by exists c.
  - destruct c as [|y c]; string_simpl.
    + right. by exists (String x a).
    + injection H as -> H. destruct (IH _ H) as [(m & -> & ->)|(m & -> & ->)].
      * left. by exists m.
      * right. by exists m.
Qed.

(** ** The matcher *)

Section DotPlus.

Context {R : Type}.
Implicit Types (k : string → string → option R) (s p rest : string).

(** A successful [.+] gave the continuation some text it accepted. *)
Lemma dot_plus_some k s r :
  regexp.dot_plus k s = Some r →
  ∃ p rest, p ≠ "" ∧ s = p +:+ rest ∧ k p rest = Some r.
Proof.
  revert k. induction s as [|c s IH]; intros k H; simpl in H; [done |].
  destruct (regexp.is_newline c); [done |].
  destruct (regexp.dot_plus _ s) as [r'|] eqn:E.
  - injection H as ->. apply IH in E as (p & rest & _ & -> & Hk).
    by exists (String c p), rest.
  - by exists (String c ""), s.
Qed.

(** [.+] fails when the continuation accepts no cut of the input. *)
Lemma dot_plus_none k s :
  (∀ q q', q ≠ "" → s = q +:+ q' → k q q' = None) →
  regexp.dot_plus k s = None.
Proof.
  revert k. induction s as [|c s IH]; intros k H; simpl; [done |].
  destruct (regexp.is_newline c); [done |].
  rewrite IH.
  - by apply H.
  - intros q q' _ ->. by apply H.
Qed.

(** [.+] takes [p] when the continuation accepts that cut and no longer
    one. *)
Lemma dot_plus_take k p rest r :
  p ≠ "" → single_line p → k p rest = Some r →
  (∀ q q', q ≠ "" → rest = q +:+ q' → k (p +:+ q) q' = None) →
  regexp.dot_plus k (p +:+ rest) = Some r.
Proof.
  revert k. induction p as [|c p IH]; intros k Hp Hline Hk Hlonger; [done |].
  unfold single_line in Hline. simpl in Hline.
  apply orb_false_elim in Hline as [Hc Hline].
  rewrite append_cons. simpl. unfold regexp.is_newline. rewrite Hc.
  destruct p as [|c' p].
  - rewrite append_nil_l, dot_plus_none; [done |].
    intros q q' Hq ->. by apply (Hlonger q q').
  - rewrite (IH (λ taken rest, k (String c taken) rest)); try done.
Qed.

End DotPlus.

Lemma match_here_lit c re (s : string) :
  regexp.match_here (regexp.Lit c :: re) (String c s) =
    match regexp.match_here re s with
    | Some (whole, subs) => Some (String c whole, subs)
    | None => None
    end.
Proof. simpl. by rewrite Ascii.eqb_refl. Qed.

Lemma match_here_lit_none c re (s : string) :
  contains c s = false → regexp.match_here (regexp.Lit c :: re) s = None.
Proof.
  destruct s as [|c' s]; simpl; [done |]. intros H.
  apply orb_false_elim in H as [H _]. by rewrite Ascii.eqb_sym, H.
Qed.

(** A match reports one text per group. *)
Lemma match_here_groups re (s whole : string) subs :
  regexp.match_here re s = Some (whole, subs) →
  S (length subs) = length (regexp.SubexpNames re).
Proof.
  revert s whole subs.
  induction re as [|[c|name] re IH]; intros s whole subs H; simpl in H.
  - by injection H as <- <-.
  - destruct s as [|c' s]; [done |]. destruct (Ascii.eqb c c'); [| done].
    destruct (regexp.match_here re s) as [[w l]|] eqn:E; [| done].
    injection H as <- <-. by apply IH in E.
  - apply dot_plus_some in H as (p & rest & _ & _ & H).
    destruct (regexp.match_here re rest) as [[w l]|] eqn:E; [| done].
    injection H as <- <-. apply IH in E. unfold regexp.SubexpNames in *.
    simpl. f_equal. exact E.
Qed.

Lemma find_groups re (s whole : string) subs :
  regexp.find re s = Some (whole, subs) →
  S (length subs) = length (regexp.SubexpNames re).
Proof.
  induction s as [|c s IH]; simpl;
    destruct (regexp.match_here re _) as [[w l]|] eqn:E; intros H;
    try (injection H as <- <-; by apply match_here_groups in E); [done | auto].
Qed.

Lemma find_here re (s : string) m :
  regexp.match_here re s = Some m → regexp.find re s = Some m.
Proof. intros H. destruct s; simpl; by rewrite H. Qed.

Lemma match_here_group name re (s : string) :
  regexp.match_here (regexp.NamedDotPlus name :: re) s =
    regexp.dot_plus
      (λ taken rest,
         match regexp.match_here re rest with
         | Some (whole, subs) => Some (taken +:+ whole, taken :: subs)
         | None => None
         end) s.
Proof. reflexivity. Qed.

Lemma match_here_lit_other c re (s : string) :
  (∀ y, s = String c y → regexp.match_here re y = None) →
  regexp.match_here (regexp.Lit c :: re) s = None.
Proof.
  intros H. destruct s as [|c' s]; simpl; [done |].
  destruct (Ascii.eqb_spec c c') as [<-|]; [| done]. by rewrite H.
Qed.

Lemma dot_plus_all {R} (k : string → string → option R) (p : string) r :
  p ≠ "" → single_line p → k p "" = Some r → regexp.dot_plus k p = Some r.
Proof.
  intros Hp Hline Hk. rewrite <- (append_nil_r p).
  apply dot_plus_take; try done.
  intros [|c q] q' Hq Heq; [done | by rewrite append_cons in Heq].
Qed.

(** ** Taints: the three groups of a well-formed string *)

Section TaintSegments.

Variables k v e : string.
Hypothesis k_nonempty : k ≠ "".
Hypothesis v_nonempty : v ≠ "".
Hypothesis e_nonempty : e ≠ "".
Hypothesis k_line : single_line k.
Hypothesis v_line : single_line v.
Hypothesis e_line : single_line e.
Hypothesis v_no_eq : contains "="%char v = false.
Hypothesis e_no_colon : contains ":"%char e = false.

Lemma match_effect : regexp.match_here re_effect e = Some (e, [e]).
Proof.
  unfold re_effect. rewrite match_here_group.
  apply dot_plus_all; [done | done |]. simpl. by rewrite append_nil_r.
Qed.

(** The value group does not match where there is no colon. *)
Lemma match_value_none (x : string) :
  contains ":"%char x = false → regexp.match_here re_value x = None.
Proof.
  intros Hx. unfold re_value. rewrite match_here_group.
  apply dot_plus_none. intros q q' _ ->.
  rewrite contains_app in Hx. apply orb_false_elim in Hx as [_ Hx].
  by rewrite match_here_lit_none.
Qed.

Lemma match_value :
  regexp.match_here re_value (v +:+ ":" +:+ e) = Some (v +:+ ":" +:+ e, [v; e]).
Proof.
  unfold re_value. rewrite match_here_group.
  apply dot_plus_take; [done | done | |].
  - change (":" +:+ e) with (String ":" e).
    by rewrite match_here_lit, match_effect.
  - intros [|c q] q' Hq Heq; [done |].
    change (":" +:+ e) with (String ":" e) in Heq.
    rewrite (append_cons c q q') in Heq. injection Heq as _ Heq.
    pose proof e_no_colon as He. rewrite Heq, contains_app in He.
    apply orb_false_elim in He as [_ He].
    by rewrite match_here_lit_none.
Qed.

Lemma match_taint :
  regexp.match_here taint_re (k +:+ "=" +:+ v +:+ ":" +:+ e)
    = Some (k +:+ "=" +:+ v +:+ ":" +:+ e, [k; v; e]).
Proof.
  unfold taint_re. rewrite match_here_group.
  fold re_effect. fold re_value.
  apply dot_plus_take; [done | done | |].
  - change ("=" +:+ v +:+ ":" +:+ e) with (String "=" (v +:+ ":" +:+ e)).
    by rewrite match_here_lit, match_value.
  - intros [|c q] q' Hq Heq; [done |].
    change ("=" +:+ v +:+ ":" +:+ e) with (String "=" (v +:+ String ":" e)) in Heq.
    rewrite (append_cons c q q') in Heq. injection Heq as _ Heq.
    rewrite match_here_lit_other; [done |]. intros y ->.
    apply match_value_none.
    apply append_eq_split in Heq as [(m & -> & Hm)|(m & Hv & Hm)].
    + destruct m as [|c' m]; [by rewrite append_nil_l in Hm |].
      rewrite append_cons in Hm. injection Hm as _ Hm.
      pose proof e_no_colon as He. rewrite Hm, contains_app in He.
      apply orb_false_elim in He as [_ He]. by simpl in He.
    + destruct m as [|c' m]; [by rewrite append_nil_l in Hm |].
      rewrite append_cons in Hm. injection Hm as <- _.
      pose proof v_no_eq as Hv'. rewrite Hv, contains_app in Hv'.
      apply orb_false_elim in Hv' as [_ Hv']. by simpl in Hv'.
Qed.

Lemma parse_taint_segments :
  parse_taint (k +:+ "=" +:+ v +:+ ":" +:+ e)
    = Ok {| awsoc.Key := Some k; awsoc.Value := Some v;
            awsoc.Effect := Some e |}.
Proof.
  unfold parse_taint, regexp.FindStringSubmatch.
  by rewrite (find_here _ _ _ match_taint).
Qed.

End TaintSegments.

(** C2, as stated, fails: on "a=b=c:d" the key is not the segment before the
    first '=' (that would be "a", with value "b=c"); the first [.+] is greedy,
    so the key runs up to the last '=' that still leaves a value, a colon and
    an effect. *)
Lemma taint_key_is_not_first_segment :
  parse_taint "a=b=c:d"
    = Ok {| awsoc.Key := Some "a=b"; awsoc.Value := Some "c";
            awsoc.Effect := Some "d" |}
  ∧ buildOceanTaints ["a=b=c:d"]
    = Ok (Some [{| awsoc.Key := Some "a=b"; awsoc.Value := Some "c";
                   awsoc.Effect := Some "d" |}])
  ∧ buildOceanTaints ["a=b=c:d"]
    ≠ Ok (Some [{| awsoc.Key := Some "a"; awsoc.Value := Some "b=c";
                   awsoc.Effect := Some "d" |}]).
Proof. split; [reflexivity |]. split; [reflexivity | discriminate]. Qed.

(** C2, amended.  For a string [k=v:e] on one line, with [k], [v] and [e] not
    empty, no '=' in [v] and no ':' in [e] (so [k] may hold '=' and ':', [v]
    may hold ':' and [e] may hold '='), the groups are [k], [v] and [e]: the
    effect is the segment after the last ':', the value lies between the last
    '=' before that colon and the colon, and the key is all that precedes
    that '='. *)
Theorem taint_segmentation (k v e : string) :
  k ≠ "" → v ≠ "" → e ≠ "" →
  single_line k → single_line v → single_line e →
  contains "="%char v = false → contains ":"%char e = false →
  regexp.FindStringSubmatch taint_re (k +:+ "=" +:+ v +:+ ":" +:+ e)
    = [k +:+ "=" +:+ v +:+ ":" +:+ e; k; v; e]
  ∧ buildOceanTaints [k +:+ "=" +:+ v +:+ ":" +:+ e]
    = Ok (Some [{| awsoc.Key := Some k; awsoc.Value := Some v;
                   awsoc.Effect := Some e |}]).
Proof.
  intros Hk Hv He Lk Lv Le Ev Ce. split.
  - unfold regexp.FindStringSubmatch.
    by rewrite (find_here _ _ _ (match_taint k v e Hk Hv He Lk Lv Le Ev Ce)).
  - unfold buildOceanTaints. simpl.
    rewrite (parse_taint_segments k v e Hk Hv He Lk Lv Le Ev Ce).
    by destruct (decide _) as [|[]].
Qed.

Lemma taint_segmentation_witness :
  regexp.FindStringSubmatch taint_re ("a=b" +:+ "=" +:+ "c:c" +:+ ":" +:+ "d=d")
    = ["a=b=c:c:d=d"; "a=b"; "c:c"; "d=d"]
  ∧ buildOceanTaints ["a=b" +:+ "=" +:+ "c:c" +:+ ":" +:+ "d=d"]
    = Ok (Some [{| awsoc.Key := Some "a=b"; awsoc.Value := Some "c:c";
                   awsoc.Effect := Some "d=d" |}]).
Proof.
  apply (taint_segmentation "a=b" "c:c" "d=d");
    solve [discriminate | reflexivity].
Defined.

(** ** Taints: malformed strings *)

(** The inner loop sets all three fields or none. *)
Lemma parse_taint_cases (t : string) :
  parse_taint t = Ok new_Taint
  ∨ ∃ k v e, parse_taint t
             = Ok {| awsoc.Key := Some k; awsoc.Value := Some v;
                     awsoc.Effect := Some e |}.
Proof.
  unfold parse_taint, regexp.FindStringSubmatch.
  destruct (regexp.find taint_re t) as [[w subs]|] eqn:E; [| by left].
  apply find_groups in E. right.
  destruct subs as [|k [|v [|e [|]]]]; try discriminate E.
  by exists k, v, e.
Qed.

Lemma complete_taint_cases (t : string) :
  (∃ taint, parse_taint t = Ok taint ∧ ¬ taint_complete taint
            ∧ complete_taint t = None)
  ∨ (∃ taint, parse_taint t = Ok taint ∧ taint_complete taint
              ∧ complete_taint t = Some taint).
Proof.
  unfold complete_taint.
  destruct (parse_taint_cases t) as [H|(k & v & e & H)]; rewrite H.
  - left. eexists. split; [done |].
    destruct (decide _) as [(? & _)|?]; done.
  - right. eexists. split; [done |].
    destruct (decide _) as [?|n]; [done |]. by destruct n.
Qed.

Lemma extend_append {A} (out : slice A) (x : A) (l : list A) :
  extend (append out x) l = extend out (x :: l).
Proof.
  unfold extend, append. destruct l as [|y l]; simpl; [done |].
  by rewrite <- app_assoc.
Qed.

Lemma buildOceanTaints_loop_eq (taints : list string) (out : slice awsoc.Taint) :
  buildOceanTaints_loop taints out = Ok (extend out (kept_taints taints)).
Proof.
  revert out. induction taints as [|t taints IH]; intros out; [done |].
  unfold kept_taints. simpl.
  destruct (complete_taint_cases t)
    as [(taint & -> & Hn & ->)|(taint & -> & Hc & ->)].
  - destruct (decide _) as [?|_]; [done |]. apply IH.
  - destruct (decide _) as [_|?]; [| done]. rewrite IH. by rewrite extend_append.
Qed.

Lemma kept_taints_app (l1 l2 : list string) :
  kept_taints (l1 ++ l2) = kept_taints l1 ++ kept_taints l2.
Proof. apply omap_app. Qed.

(** C7.  [buildOceanTaints] never fails: its result holds, in order, the
    records of the strings that yield key, value and effect.  A string that
    does not yield all three leaves no record and does not stop the loop;
    "dedicated=true:NoSchedule" yields its one record, "malformed" none. *)
Theorem buildOceanTaints_drops_malformed :
  (∀ taints, ∃ out, buildOceanTaints taints = Ok out
                    ∧ slice_elems out = kept_taints taints)
  ∧ (∀ t, ∃ taint, parse_taint t = Ok taint)
  ∧ (∀ before t after taint,
       parse_taint t = Ok taint → ¬ taint_complete taint →
       buildOceanTaints (before ++ t :: after)
         = buildOceanTaints (before ++ after))
  ∧ (∀ before t after taint,
       parse_taint t = Ok taint → taint_complete taint →
       buildOceanTaints (before ++ t :: after)
         = Ok (Some (kept_taints before ++ taint :: kept_taints after)))
  ∧ buildOceanTaints ["dedicated=true:NoSchedule"]
    = Ok (Some [{| awsoc.Key := Some "dedicated"; awsoc.Value := Some "true";
                   awsoc.Effect := Some "NoSchedule" |}])
  ∧ buildOceanTaints ["malformed"] = Ok None
  ∧ buildOceanTaints ["malformed"; "dedicated=true:NoSchedule"]
    = Ok (Some [{| awsoc.Key := Some "dedicated"; awsoc.Value := Some "true";
                   awsoc.Effect := Some "NoSchedule" |}]).
Proof.
  split; [| split; [| split; [| split]]].
  - intros taints. unfold buildOceanTaints. rewrite buildOceanTaints_loop_eq.
    eexists. split; [done |]. unfold extend. by destruct (kept_taints taints).
  - intros t. destruct (parse_taint_cases t) as [H|(k & v & e & H)]; eauto.
  - intros before t after taint Hp Hn. unfold buildOceanTaints.
    rewrite !buildOceanTaints_loop_eq. f_equal. f_equal.
    rewrite !kept_taints_app. f_equal. unfold kept_taints. simpl.
    unfold complete_taint. rewrite Hp. by destruct (decide _).
  - intros before t after taint Hp Hc. unfold buildOceanTaints.
    rewrite buildOceanTaints_loop_eq, kept_taints_app.
    assert (kept_taints (t :: after) = taint :: kept_taints after) as ->.
    { unfold kept_taints. simpl. unfold complete_taint. rewrite Hp.
      by destruct (decide _). }
    unfold extend. simpl. by destruct (kept_taints before).
  - repeat split; reflexivity.
Qed.

Lemma buildOceanTaints_drops_malformed_witness :
  buildOceanTaints (["a=b:c"] ++ "malformed" :: ["dedicated=true:NoSchedule"])
    = buildOceanTaints (["a=b:c"] ++ ["dedicated=true:NoSchedule"])
  ∧ buildOceanTaints ([] ++ "a=b:c" :: ["malformed"])
    = Ok (Some (kept_taints [] ++
                {| awsoc.Key := Some "a"; awsoc.Value := Some "b";
                   awsoc.Effect := Some "c" |} :: kept_taints ["malformed"])).
Proof.
  destruct buildOceanTaints_drops_malformed as (_ & _ & Hdrop & Hkeep & _).
  split.
  - apply (Hdrop ["a=b:c"] "malformed" ["dedicated=true:NoSchedule"] new_Taint).
    + reflexivity.
    + intros (H & _). by apply H.
  - apply (Hkeep [] "a=b:c" ["malformed"]).
    + reflexivity.
    + repeat split; discriminate.
Defined.

(** ** Subnets *)

Lemma StringSlicesEqualIgnoreOrder_true (l r : list string) :
  utils.StringSlicesEqualIgnoreOrder l r = true ↔ same_members l r.
Proof.
  unfold utils.StringSlicesEqualIgnoreOrder, same_members.
  rewrite bool_decide_eq_true. split.
  - intros H x. by rewrite <- !(elem_of_list_to_set (C := gset string)), H.
  - intros H. apply set_eq. intros x. by rewrite !elem_of_list_to_set.
Qed.

Lemma same_members_Some (l r : list string) :
  same_members (Some <$> l) (Some <$> r) ↔ same_members l r.
Proof.
  unfold same_members. split.
  - intros H x. specialize (H (Some x)). rewrite !list_elem_of_fmap in H.
    split; intros Hx.
    + destruct H as [H _]. destruct H as (y & [= ->] & Hy); eauto.
    + destruct H as [_ H]. destruct H as (y & [= ->] & Hy); eauto.
  - intros H x. rewrite !list_elem_of_fmap.
    split; intros (y & -> & Hy); exists y; (split; [done |]); by apply H.
Qed.

(** A slice has all its identifiers set, or a nil one among them. *)
Lemma subnet_ids_cases (l : list awstasks.Subnet) :
  (∃ ids, subnet_ids l = Some <$> ids) ∨ None ∈ subnet_ids l.
Proof.
  unfold subnet_ids. induction l as [|[[id|]] l IH]; rewrite ?fmap_cons.
  - left. by exists [].
  - destruct IH as [(ids & Hids)|IH].
    + left. exists (id :: ids). by rewrite fmap_cons, Hids.
    + right. by apply list_elem_of_further.
  - right. apply list_elem_of_here.
Qed.

Lemma collect_left_set (l : list awstasks.Subnet) ids lIDs :
  subnet_ids l = Some <$> ids → collect_left l lIDs = Ok (lIDs ++ ids).
Proof.
  unfold subnet_ids. revert ids lIDs.
  induction l as [|s l IH]; intros [|id ids] lIDs H; simpl in *;
    try discriminate H.
  - by rewrite app_nil_r.
  - injection H as Hs Hrest. rewrite Hs, (IH ids); [| done].
    by rewrite <- app_assoc.
Qed.

Lemma collect_left_unset (l : list awstasks.Subnet) lIDs :
  None ∈ subnet_ids l → collect_left l lIDs = Panic.
Proof.
  unfold subnet_ids. revert lIDs.
  induction l as [|s l IH]; intros lIDs H; simpl in *.
  - by apply elem_of_nil in H.
  - destruct (awstasks.ID s) as [id|]; [| done].
    apply elem_of_cons in H as [?|H]; [done | by apply IH].
Qed.

Lemma collect_right_set (r : list awstasks.Subnet) ids rIDs :
  subnet_ids r = Some <$> ids → collect_right r rIDs = Some (rIDs ++ ids).
Proof.
  unfold subnet_ids. revert ids rIDs.
  induction r as [|s r IH]; intros [|id ids] rIDs H; simpl in *;
    try discriminate H.
  - by rewrite app_nil_r.
  - injection H as Hs Hrest. rewrite Hs, (IH ids); [| done].
    by rewrite <- app_assoc.
Qed.

Lemma collect_right_unset (r : list awstasks.Subnet) rIDs :
  None ∈ subnet_ids r → collect_right r rIDs = None.
Proof.
  unfold subnet_ids. revert rIDs.
  induction r as [|s r IH]; intros rIDs H; simpl in *.
  - by apply elem_of_nil in H.
  - destruct (awstasks.ID s) as [id|]; [| done].
    apply elem_of_cons in H as [?|H]; [done | by apply IH].
Qed.

Lemma all_set_not_unset (l : list awstasks.Subnet) :
  Forall (λ s, is_Some (awstasks.ID s)) l → None ∉ subnet_ids l.
Proof.
  unfold subnet_ids. intros H Hin. apply list_elem_of_fmap in Hin as (s & Hs & Hin).
  rewrite Forall_forall in H. destruct (H s Hin) as [id Hid]. congruence.
Qed.

(** C5.  When every subnet on the right has an identifier, the comparator
    returns true exactly when the two slices have the same identifiers as
    sets, order and repetitions being ignored: [a, b] equals [b, a], and
    [a, a, b] equals [a, b]. *)
Theorem subnetSlicesEqualIgnoreOrder_set_equality
    (l r : list awstasks.Subnet) :
  Forall (λ s, is_Some (awstasks.ID s)) r →
  (subnetSlicesEqualIgnoreOrder l r = Ok true
   ↔ same_members (subnet_ids l) (subnet_ids r))
  ∧ (Forall (λ s, is_Some (awstasks.ID s)) l →
     ∃ b, subnetSlicesEqualIgnoreOrder l r = Ok b)
  ∧ subnetSlicesEqualIgnoreOrder
      [subnet (Some "a"); subnet (Some "b")]
      [subnet (Some "b"); subnet (Some "a")] = Ok true
  ∧ subnetSlicesEqualIgnoreOrder
      [subnet (Some "a"); subnet (Some "a"); subnet (Some "b")]
      [subnet (Some "a"); subnet (Some "b")] = Ok true
  ∧ subnetSlicesEqualIgnoreOrder
      [subnet (Some "a")] [subnet (Some "b")] = Ok false.
Proof.
  intros Hr. apply all_set_not_unset in Hr.
  destruct (subnet_ids_cases r) as [(rIDs & HrIDs)|?]; [| done].
  unfold subnetSlicesEqualIgnoreOrder.
  rewrite (collect_right_set _ _ [] HrIDs).
  split; [| split; [| by vm_compute]].
  - destruct (subnet_ids_cases l) as [(lIDs & HlIDs)|Hl].
    + rewrite (collect_left_set _ _ [] HlIDs), HlIDs, HrIDs. simpl.
      rewrite same_members_Some, <- StringSlicesEqualIgnoreOrder_true.
      split; [by intros [= ->] | by intros ->].
    + rewrite (collect_left_unset _ _ Hl). split; [done |].
      intros H. destruct Hr. by apply H.
  - intros Hl. apply all_set_not_unset in Hl.
    destruct (subnet_ids_cases l) as [(lIDs & HlIDs)|?]; [| done].
    rewrite (collect_left_set _ _ [] HlIDs). eauto.
Qed.

Lemma subnetSlicesEqualIgnoreOrder_set_equality_witness :
  (subnetSlicesEqualIgnoreOrder
     [subnet (Some "a"); subnet (Some "b"); subnet (Some "a")]
     [subnet (Some "b"); subnet (Some "a")] = Ok true
   ↔ same_members [Some "a"; Some "b"; Some "a"] [Some "b"; Some "a"]).
Proof.
  apply (subnetSlicesEqualIgnoreOrder_set_equality
           [subnet (Some "a"); subnet (Some "b"); subnet (Some "a")]
           [subnet (Some "b"); subnet (Some "a")]).
  repeat constructor; by eexists.
Defined.

(** C9.  The two slices are not treated alike: a nil identifier on the left
    is dereferenced and the call panics, whatever the right slice holds; a
    nil identifier on the right, the left identifiers being all set, makes
    the call return false. *)
Theorem subnetSlicesEqualIgnoreOrder_asymmetric :
  (∀ l r, None ∈ subnet_ids l → subnetSlicesEqualIgnoreOrder l r = Panic)
  ∧ (∀ l r, Forall (λ s, is_Some (awstasks.ID s)) l →
            None ∈ subnet_ids r →
            subnetSlicesEqualIgnoreOrder l r = Ok false)
  ∧ subnetSlicesEqualIgnoreOrder [subnet None] [subnet (Some "a")] = Panic
  ∧ subnetSlicesEqualIgnoreOrder [subnet (Some "a")] [subnet None] = Ok false.
Proof.
  split; [| split; [| by vm_compute]].
  - intros l r Hl. unfold subnetSlicesEqualIgnoreOrder.
    by rewrite (collect_left_unset _ _ Hl).
  - intros l r Hl Hr. apply all_set_not_unset in Hl.
    destruct (subnet_ids_cases l) as [(lIDs & HlIDs)|?]; [| done].
    unfold subnetSlicesEqualIgnoreOrder.
    by rewrite (collect_left_set _ _ [] HlIDs), (collect_right_unset _ _ Hr).
Qed.

Lemma subnetSlicesEqualIgnoreOrder_asymmetric_witness :
  subnetSlicesEqualIgnoreOrder
    [subnet (Some "a"); subnet None] [subnet None] = Panic
  ∧ subnetSlicesEqualIgnoreOrder
      [subnet (Some "a"); subnet (Some "b")]
      [subnet (Some "a"); subnet None] = Ok false.
Proof.
  destruct subnetSlicesEqualIgnoreOrder_asymmetric as (Hleft & Hright & _).
  split.
  - apply Hleft. apply list_elem_of_further, list_elem_of_here.
  - apply Hright.
    + repeat constructor; by eexists.
    + apply list_elem_of_further, list_elem_of_here.
Defined.

(* ===================================================================== *)
(** * Part V: further properties of the helpers *)
(* ===================================================================== *)

(** ** Orientation *)

(** X1.  [normalizeOrientation] always gives one of the four constants, and
    each of the three special constants comes from exactly one input: the
    result is balanced unless the input is "cost", "availability" or
    "equal-distribution". *)
Theorem normalizeOrientation_inverse (o : option string) :
  normalizeOrientation o ∈
    [OrientationBalanced; OrientationCost; OrientationAvailability;
     OrientationEqualZoneDistribution]
  ∧ (normalizeOrientation o = OrientationCost ↔ o = Some "cost")
  ∧ (normalizeOrientation o = OrientationAvailability
     ↔ o = Some "availability")
  ∧ (normalizeOrientation o = OrientationEqualZoneDistribution
     ↔ o = Some "equal-distribution")
  ∧ (normalizeOrientation o = OrientationBalanced
     ↔ o ≠ Some "cost" ∧ o ≠ Some "availability"
       ∧ o ≠ Some "equal-distribution").
Proof.
  unfold normalizeOrientation. destruct o as [s|]; cbn zeta.
  - repeat case_decide;
      (split; [repeat first [apply list_elem_of_here | apply list_elem_of_further]
              | repeat split; intros; try done; try congruence;
                try (repeat split; congruence);
                try (exfalso; intuition congruence)]).
  - split; [apply list_elem_of_here |].
    repeat split; intros; try done; try congruence.
Qed.

(** X2.  The constants are not among the recognised inputs: normalising a
    normalised value gives balanced, whatever the first input was. *)
Theorem normalizeOrientation_twice (o : option string) :
  normalizeOrientation (Some (normalizeOrientation o)) = OrientationBalanced.
Proof.
  unfold normalizeOrientation at 2. destruct o as [s|]; cbn zeta;
    repeat case_decide; reflexivity.
Qed.

(** ** Ephemeral devices *)

Lemma add_ephemeral_insert m ed :
  add_ephemeral m ed = <[awsup.DeviceName ed := ephemeral_mapping ed]> m.
Proof. reflexivity. Qed.

Lemma foldl_add_ephemeral_dom (l : list awsup.EphemeralDevice)
    (m : gmap string awstasks.BlockDeviceMapping) :
  dom (foldl add_ephemeral m l)
    = dom m ∪ list_to_set (awsup.DeviceName <$> l).
Proof.
  revert m. induction l as [|ed l IH]; intros m; simpl.
  - set_solver.
  - rewrite IH, add_ephemeral_insert, dom_insert_L. set_solver.
Qed.

Lemma foldl_add_ephemeral_other (l : list awsup.EphemeralDevice)
    (m : gmap string awstasks.BlockDeviceMapping) d :
  d ∉ awsup.DeviceName <$> l → foldl add_ephemeral m l !! d = m !! d.
Proof.
  revert m. induction l as [|ed l IH]; intros m Hd; simpl; [done |].
  rewrite fmap_cons in Hd. apply not_elem_of_cons in Hd as [Hne Hd].
  rewrite (IH _ Hd), add_ephemeral_insert. by rewrite lookup_insert_ne.
Qed.

Lemma foldl_add_ephemeral_lookup (l : list awsup.EphemeralDevice)
    (m : gmap string awstasks.BlockDeviceMapping) d bdm :
  foldl add_ephemeral m l !! d = Some bdm →
  m !! d = Some bdm
  ∨ ∃ ed, ed ∈ l ∧ awsup.DeviceName ed = d ∧ bdm = ephemeral_mapping ed.
Proof.
  revert m. induction l as [|ed l IH]; intros m H; simpl in H; [by left |].
  apply IH in H as [H|(ed' & Hin & Hd & Hb)].
  - rewrite add_ephemeral_insert in H.
    destruct (decide (awsup.DeviceName ed = d)) as [Heq|Hne].
    + rewrite <- Heq, lookup_insert_eq in H. injection H as <-.
      right. exists ed. split; [apply list_elem_of_here | done].
    + rewrite lookup_insert_ne in H by done. by left.
  - right. exists ed'. split; [by apply list_elem_of_further | done].
Qed.

Lemma foldl_add_ephemeral_size (l : list awsup.EphemeralDevice)
    (m : gmap string awstasks.BlockDeviceMapping) :
  (size (foldl add_ephemeral m l) ≤ size m + length l)%nat.
Proof.
  revert m. induction l as [|ed l IH]; intros m; simpl; [lia |].
  etrans; [apply IH |]. rewrite add_ephemeral_insert, map_size_insert.
  destruct (m !! _); unfold id; lia.
Qed.

(** X3.  For a machine type the catalogue knows, [buildEphemeralDevices]
    asks the catalogue once and returns a map whose keys are the device
    names of the descriptors; every entry carries the virtual name of a
    descriptor of that name and no EBS field; when a device name occurs
    several times, its last descriptor is the one kept; so the map has at
    most as many entries as there are descriptors. *)
Theorem buildEphemeralDevices_devices GetMachineTypeInfo name info :
  GetMachineTypeInfo name = inr info →
  ∃ m,
    buildEphemeralDevices GetMachineTypeInfo (Some name)
      = (Ok m, [CallGetMachineTypeInfo name])
    ∧ dom m = list_to_set (awsup.DeviceName <$> awsup.EphemeralDevices info)
    ∧ (∀ d bdm, m !! d = Some bdm →
         ∃ ed, ed ∈ awsup.EphemeralDevices info ∧ awsup.DeviceName ed = d
               ∧ bdm = ephemeral_mapping ed)
    ∧ (∀ before ed after,
         awsup.EphemeralDevices info = before ++ ed :: after →
         awsup.DeviceName ed ∉ awsup.DeviceName <$> after →
         m !! awsup.DeviceName ed = Some (ephemeral_mapping ed))
    ∧ (size m ≤ length (awsup.EphemeralDevices info))%nat.
Proof.
  intros H. eexists. split.
  { unfold buildEphemeralDevices, call_GetMachineTypeInfo. simpl.
    rewrite H. reflexivity. }
  split; [| split; [| split]].
  - rewrite foldl_add_ephemeral_dom. set_solver.
  - intros d bdm Hd. apply foldl_add_ephemeral_lookup in Hd as [Hd|Hd]; done.
  - intros before ed after -> Hlast. rewrite foldl_app. simpl.
    rewrite foldl_add_ephemeral_other by done.
    by rewrite add_ephemeral_insert, lookup_insert_eq.
  - etrans; [apply foldl_add_ephemeral_size |]. by rewrite map_size_empty.
Qed.

Lemma buildEphemeralDevices_devices_witness :
  ∃ m,
    buildEphemeralDevices disk_catalogue (Some "m3.xlarge")
      = (Ok m, [CallGetMachineTypeInfo "m3.xlarge"])
    ∧ dom m = list_to_set (awsup.DeviceName <$> awsup.EphemeralDevices three_disks)
    ∧ (∀ d bdm, m !! d = Some bdm →
         ∃ ed, ed ∈ awsup.EphemeralDevices three_disks
               ∧ awsup.DeviceName ed = d ∧ bdm = ephemeral_mapping ed)
    ∧ (∀ before ed after,
         awsup.EphemeralDevices three_disks = before ++ ed :: after →
         awsup.DeviceName ed ∉ awsup.DeviceName <$> after →
         m !! awsup.DeviceName ed = Some (ephemeral_mapping ed))
    ∧ (size m ≤ length (awsup.EphemeralDevices three_disks))%nat.
Proof.
  apply (buildEphemeralDevices_devices disk_catalogue "m3.xlarge" three_disks).
  reflexivity.
Defined.

(** X4.  Every mapping [buildEphemeralDevices] returns converts to a wire
    record with its device name, a virtual name and no EBS record. *)
Theorem ephemeral_devices_have_no_EBS GetMachineTypeInfo name m d bdm :
  fst (buildEphemeralDevices GetMachineTypeInfo name) = Ok m →
  m !! d = Some bdm →
  ∃ v, buildBlockDeviceMapping d bdm
       = {| awseg.DeviceName := Some d; awseg.VirtualName := Some v;
            awseg.EBS_ := None |}.
Proof.
  intros Hm Hd. destruct name as [name|]; [| done].
  unfold buildEphemeralDevices, call_GetMachineTypeInfo in Hm. simpl in Hm.
  destruct (GetMachineTypeInfo name) as [e|info]; [done |].
  simpl in Hm. injection Hm as <-.
  apply foldl_add_ephemeral_lookup in Hd as [Hd|(ed & _ & _ & ->)]; [done |].
  by eexists.
Qed.

Lemma ephemeral_devices_have_no_EBS_witness :
  ∃ v, buildBlockDeviceMapping "/dev/sdc"
         (ephemeral_mapping {| awsup.DeviceName := "/dev/sdc";
                               awsup.EphemeralVirtualName := "ephemeral2" |})
       = {| awseg.DeviceName := Some "/dev/sdc"; awseg.VirtualName := Some v;
            awseg.EBS_ := None |}.
Proof.
  apply (ephemeral_devices_have_no_EBS disk_catalogue (Some "m3.xlarge")
           (foldl (add_ephemeral) ∅ (awsup.EphemeralDevices three_disks))).
  - reflexivity.
  - by vm_compute.
Defined.

(** ** The gp2 rule *)

(** X5.  Neither enforcement point lets IOPS through for a gp2 volume: a wire
    EBS record of type gp2 has no IOPS, and neither has a root mapping of
    type gp2. *)
Theorem gp2_never_carries_IOPS :
  (∀ deviceName i ebs,
     awseg.EBS_ (buildBlockDeviceMapping deviceName i) = Some ebs →
     awseg.VolumeType ebs = Some "gp2" →
     awseg.IOPS ebs = None)
  ∧ (∀ cloud imageID opts bdm d m,
       fst (buildRootDevice cloud imageID opts) = Ok bdm →
       bdm !! d = Some m →
       awstasks.EbsVolumeType m = Some "gp2" →
       awstasks.EbsVolumeIops m = None).
Proof.
  split.
  - intros deviceName i ebs. unfold buildBlockDeviceMapping. cbn [awseg.EBS_].
    case_decide; [| done]. intros [= <-]. cbn [awseg.VolumeType awseg.IOPS].
    intros Ht. case_decide as Hc; [| done]. destruct Hc as [_ Hc].
    by rewrite Ht in Hc.
  - intros cloud imageID opts bdm d m. unfold buildRootDevice, io_bind.
    destruct (resolveImage cloud (fi.StringValue imageID)) as [[image|e|] t];
      [| done | done].
    cbn [io_ret fst]. intros [= <-]. rewrite insert_empty.
    intros [_ <-]%lookup_singleton_Some.
    cbn [awstasks.EbsVolumeType awstasks.EbsVolumeIops].
    intros Ht. case_decide as Hc; [| done]. destruct Hc as [_ Hc].
    by rewrite Ht in Hc.
Qed.

Lemma gp2_never_carries_IOPS_witness :
  awseg.IOPS
    {| awseg.DeleteOnTermination := Some true; awseg.VolumeType := Some "gp2";
       awseg.VolumeSize := Some 64; awseg.IOPS := None |} = None
  ∧ awstasks.EbsVolumeIops
      {| awstasks.VirtualName := None;
         awstasks.EbsDeleteOnTermination := Some true;
         awstasks.EbsVolumeSize := Some 64;
         awstasks.EbsVolumeType := Some "gp2";
         awstasks.EbsVolumeIops := None |} = None.
Proof.
  destruct gp2_never_carries_IOPS as [Hwire Hroot]. split.
  - apply (Hwire "/dev/xvda"
             {| awstasks.VirtualName := None;
                awstasks.EbsDeleteOnTermination := Some true;
                awstasks.EbsVolumeSize := Some 64;
                awstasks.EbsVolumeType := Some "gp2";
                awstasks.EbsVolumeIops := Some 3000 |}); reflexivity.
  - eapply (Hroot xvda_cloud (Some "ami-1") gp2_opts _ "/dev/xvda").
    + reflexivity.
    + by vm_compute.
    + reflexivity.
Defined.

(** ** The root device, end to end *)

Lemma in_range_32_64 z : in_range 32 z → in_range 64 z.
Proof.
  unfold in_range. change (2 ^ (32 - 1)) with 2147483648.
  change (2 ^ (64 - 1)) with 9223372036854775808. lia.
Qed.

Lemma int32_round_trip z :
  in_range 32 z → int_of_int64 (int64_of_int32 z) = z.
Proof.
  intros H. rewrite (int64_of_int32_id z H).
  apply wrap_in_range; [unfold int_bits; lia | by apply in_range_32_64].
Qed.

Lemma Int64Value_Some x : fi.Int64Value (Some x) = x.
Proof. reflexivity. Qed.

(** X6.  The root mapping of [buildRootDevice], converted by
    [buildBlockDeviceMapping], is the wire record under the root device name
    with an EBS record that deletes on termination and has the type, the
    size and, unless there is none or the type is gp2, the IOPS of the
    options: no value is altered by the two integer conversions. *)
Theorem root_device_on_the_wire cloud imageID opts image :
  awsup.ResolveImage cloud (fi.StringValue imageID) = (Some image, None) →
  (∀ n, Size opts = Some n → in_range 32 n) →
  (∀ n, IOPS opts = Some n → in_range 32 n) →
  ∃ m,
    fst (buildRootDevice cloud imageID opts)
      = Ok {[ fi.StringValue (awsup.RootDeviceName image) := m ]}
    ∧ buildBlockDeviceMapping (fi.StringValue (awsup.RootDeviceName image)) m
      = {| awseg.DeviceName := Some (fi.StringValue (awsup.RootDeviceName image));
           awseg.VirtualName := None;
           awseg.EBS_ := Some
             {| awseg.DeleteOnTermination := Some true;
                awseg.VolumeType := Type_ opts;
                awseg.VolumeSize := Some (fi.Int32Value (Size opts));
                awseg.IOPS :=
                  if decide (Type_ opts = Some "gp2") then None
                  else IOPS opts |} |}.
Proof.
  intros Himg Hsize Hiops.
  unfold buildRootDevice. rewrite (resolveImage_found _ _ _ Himg).
  cbn [io_bind io_ret fst]. eexists. split; [by rewrite insert_empty |].
  unfold buildBlockDeviceMapping.
  cbn [awstasks.EbsDeleteOnTermination awstasks.EbsVolumeSize
       awstasks.EbsVolumeType awstasks.EbsVolumeIops awstasks.VirtualName].
  unfold fi.String, fi.Bool, fi.Int, fi.Int64.
  assert (Hs : in_range 32 (fi.Int32Value (Size opts))).
  { destruct (Size opts) as [n|]; simpl; [by apply Hsize |].
    unfold in_range. change (2 ^ (32 - 1)) with 2147483648. lia. }
  case_decide as Hattach; [| destruct Hattach; by left].
  f_equal. f_equal. f_equal.
  - rewrite Int64Value_Some. by rewrite int32_round_trip.
  - destruct (decide (IOPS opts ≠ None ∧ fi.StringValue (Type_ opts) ≠ "gp2"))
      as [[Hi Ht]|Hn].
    + rewrite decide_True by done. rewrite Int64Value_Some.
      apply StringValue_ne in Ht; [| done]. rewrite decide_False by done.
      destruct (IOPS opts) as [n|] eqn:En; [| done]. simpl.
      by rewrite (int32_round_trip n (Hiops n eq_refl)).
    + rewrite decide_False by (by intros [? _]).
      case_decide as Hgp2; [done |].
      destruct (IOPS opts) as [n|]; [| done].
      destruct Hn. split; [done | by apply StringValue_ne].
Qed.

Lemma root_device_on_the_wire_witness :
  ∃ m,
    fst (buildRootDevice xvda_cloud (Some "ami-1") io1_opts)
      = Ok {[ "/dev/xvda" := m ]}
    ∧ buildBlockDeviceMapping "/dev/xvda" m
      = {| awseg.DeviceName := Some "/dev/xvda";
           awseg.VirtualName := None;
           awseg.EBS_ := Some
             {| awseg.DeleteOnTermination := Some true;
                awseg.VolumeType := Some "io1";
                awseg.VolumeSize := Some 64;
                awseg.IOPS := Some 3000 |} |}.
Proof.
  apply (root_device_on_the_wire xvda_cloud (Some "ami-1") io1_opts
           {| awsup.RootDeviceName := Some "/dev/xvda" |}).
  - reflexivity.
  - intros n [= <-]. unfold in_range. simpl. lia.
  - intros n [= <-]. unfold in_range. simpl. lia.
Defined.


(** ** Taints: what a match is made of *)

Lemma single_line_cons c (s : string) :
  single_line (String c s) ↔ regexp.is_newline c = false ∧ single_line s.
Proof.
  unfold single_line, regexp.is_newline. simpl. by rewrite orb_false_iff.
Qed.

Lemma single_line_app (a b : string) :
  single_line (a +:+ b) ↔ single_line a ∧ single_line b.
Proof. unfold single_line. by rewrite contains_app, orb_false_iff. Qed.

Section DotPlusMore.

Context {R : Type}.
Implicit Types (k : string → string → option R) (s p rest : string).

(** The text [.+] takes is not empty and holds no newline. *)
Lemma dot_plus_some_line k s r :
  regexp.dot_plus k s = Some r →
  ∃ p rest, p ≠ "" ∧ single_line p ∧ s = p +:+ rest ∧ k p rest = Some r.
Proof.
  revert k. induction s as [|c s IH]; intros k H; simpl in H; [done |].
  destruct (regexp.is_newline c) eqn:Hc; [done |].
  destruct (regexp.dot_plus _ s) as [r'|] eqn:E.
  - injection H as ->. apply IH in E as (p & rest & _ & Hp & -> & Hk).
    exists (String c p), rest. by rewrite single_line_cons.
  - exists (String c ""), s. by rewrite single_line_cons.
Qed.

(** [.+] succeeds as soon as the continuation accepts some cut. *)
Lemma dot_plus_complete k p rest :
  p ≠ "" → single_line p → is_Some (k p rest) →
  is_Some (regexp.dot_plus k (p +:+ rest)).
Proof.
  revert k. induction p as [|c p IH]; intros k Hp Hline Hk; [done |].
  apply single_line_cons in Hline as [Hc Hline].
  rewrite append_cons. simpl. rewrite Hc.
  destruct p as [|c' p].
  - rewrite append_nil_l. by destruct (regexp.dot_plus _ rest).
  - destruct (IH (λ taken rest, k (String c taken) rest)) as [r Hr];
      try done.
    by rewrite Hr.
Qed.

(** Before a continuation that accepts every cut, [.+] runs to the end of
    the line. *)
Lemma dot_plus_to_end_of_line (f : string → R) s r :
  regexp.dot_plus (λ taken _, Some (f taken)) s = Some r →
  ∃ p rest, r = f p ∧ s = p +:+ rest ∧ p ≠ "" ∧ single_line p
            ∧ (rest = "" ∨ ∃ rest', rest = String "010" rest').
Proof.
  revert f r. induction s as [|c s IH]; intros f r H; simpl in H; [done |].
  destruct (regexp.is_newline c) eqn:Hc; [done |].
  destruct (regexp.dot_plus _ s) as [r'|] eqn:E.
  - injection H as ->.
    apply (IH (λ taken, f (String c taken))) in E
      as (p & rest & -> & -> & _ & Hp & Hrest).
    exists (String c p), rest. by rewrite single_line_cons.
  - injection H as <-. exists (String c ""), s.
    rewrite single_line_cons. repeat split; try done.
    destruct s as [|c' s]; [by left | right]. simpl in E.
    destruct (regexp.is_newline c') eqn:Hc'.
    + apply Ascii.eqb_eq in Hc' as ->. by exists s.
    + by destruct (regexp.dot_plus _ s).
Qed.

End DotPlusMore.

Lemma match_here_lit_inv c re (s whole : string) subs :
  regexp.match_here (regexp.Lit c :: re) s = Some (whole, subs) →
  ∃ s' whole', s = String c s' ∧ whole = String c whole'
               ∧ regexp.match_here re s' = Some (whole', subs).
Proof.
  destruct s as [|c' s]; simpl; [done |].
  destruct (Ascii.eqb_spec c c') as [<-|]; [| done].
  destruct (regexp.match_here re s) as [[w l]|] eqn:E; [| done].
  intros [= <- <-]. by exists s, w.
Qed.

(** A match of the taint pattern at the start of [s]: three texts that are
    not empty and hold no newline, joined by '=' and ':', the third running
    to the end of its line. *)
Lemma match_taint_inv (s whole : string) subs :
  regexp.match_here taint_re s = Some (whole, subs) →
  ∃ k v e post,
    subs = [k; v; e] ∧ whole = taint_string k v e
    ∧ s = taint_string k v e +:+ post
    ∧ (k ≠ "" ∧ v ≠ "" ∧ e ≠ "")
    ∧ (single_line k ∧ single_line v ∧ single_line e)
    ∧ (post = "" ∨ ∃ post', post = String "010" post').
Proof.
  unfold taint_re. rewrite match_here_group. intros H.
  apply dot_plus_some_line in H as (k & s1 & Hk & Lk & -> & H).
  destruct (regexp.match_here _ s1) as [[w1 l1]|] eqn:E1; [| done].
  injection H as <- <-.
  apply match_here_lit_inv in E1 as (s2 & w2 & -> & -> & E2).
  rewrite match_here_group in E2.
  apply dot_plus_some_line in E2 as (v & s3 & Hv & Lv & -> & H).
  destruct (regexp.match_here _ s3) as [[w3 l3]|] eqn:E3; [| done].
  injection H as <- <-.
  apply match_here_lit_inv in E3 as (s4 & w4 & -> & -> & E4).
  rewrite match_here_group in E4. simpl in E4.
  apply (dot_plus_to_end_of_line (λ taken, (taken +:+ "", [taken]))) in E4
    as (e & post & [= -> ->] & -> & He & Le & Hpost).
  exists k, v, e, post. unfold taint_string.
  rewrite append_nil_r, !append_assoc. done.
Qed.

(** The leftmost match lies somewhere in the input. *)
Lemma find_inv re (s : string) m :
  regexp.find re s = Some m →
  ∃ pre s', s = pre +:+ s' ∧ regexp.match_here re s' = Some m.
Proof.
  induction s as [|c s IH]; simpl;
    destruct (regexp.match_here re _) eqn:E; intros H; simplify_eq.
  - by exists "", "".
  - by exists "", (String c s).
  - destruct (IH H) as (pre & s' & -> & Hs'). by exists (String c pre), s'.
Qed.

(** On one line, a match that starts later can start one byte earlier. *)
Lemma match_taint_extend c (s : string) :
  regexp.is_newline c = false →
  is_Some (regexp.match_here taint_re s) →
  is_Some (regexp.match_here taint_re (String c s)).
Proof.
  unfold taint_re. rewrite !match_here_group. intros Hc [m H].
  apply dot_plus_some_line in H as (k & s1 & Hk & Lk & -> & H).
  rewrite <- append_cons. apply dot_plus_complete.
  - done.
  - by rewrite single_line_cons.
  - destruct (regexp.match_here _ s1) as [[w l]|]; [by eexists | done].
Qed.

Lemma find_cons re c (s : string) :
  regexp.find re (String c s) =
    match regexp.match_here re (String c s) with
    | Some m => Some m
    | None => regexp.find re s
    end.
Proof. reflexivity. Qed.

(** On one line the leftmost match starts at the first byte. *)
Lemma find_single_line (s : string) m :
  single_line s → regexp.find taint_re s = Some m →
  regexp.match_here taint_re s = Some m.
Proof.
  induction s as [|c s IH]; intros Hline H.
  - by vm_compute in H.
  - rewrite find_cons in H.
    destruct (regexp.match_here taint_re (String c s)) as [m'|] eqn:E;
      [done |].
    apply single_line_cons in Hline as [Hc Hline].
    apply IH in H; [| done].
    destruct (match_taint_extend c s Hc) as [m' Hm']; [by eexists |].
    congruence.
Qed.

(** The record of a string is complete exactly when the pattern matches. *)
Lemma parse_taint_complete_inv (t : string) taint :
  parse_taint t = Ok taint → taint_complete taint →
  ∃ whole k v e,
    regexp.find taint_re t = Some (whole, [k; v; e])
    ∧ taint = {| awsoc.Key := Some k; awsoc.Value := Some v;
                 awsoc.Effect := Some e |}.
Proof.
  unfold parse_taint, regexp.FindStringSubmatch.
  destruct (regexp.find taint_re t) as [[whole subs]|] eqn:E.
  - pose proof E as E'. apply find_groups in E'.
    destruct subs as [|k [|v [|e [|]]]]; try discriminate E'.
    intros [= <-] _. by exists whole, k, v, e.
  - intros [= <-] (H & _). by destruct H.
Qed.

Lemma contains_taint_string (k v e : string) :
  contains "="%char (taint_string k v e) = true
  ∧ contains ":"%char (taint_string k v e) = true.
Proof.
  unfold taint_string. rewrite !contains_app. simpl.
  by rewrite !orb_true_r.
Qed.

(** X8.  A record [buildOceanTaints] keeps is cut out of its string: the
    string holds key, '=', value, ':' and effect next to each other, none of
    the three is empty or holds a newline, and the effect runs to the end of
    its line. *)
Theorem taint_fields_from_input (t : string) taint :
  parse_taint t = Ok taint → taint_complete taint →
  ∃ k v e pre post,
    taint = {| awsoc.Key := Some k; awsoc.Value := Some v;
               awsoc.Effect := Some e |}
    ∧ t = pre +:+ taint_string k v e +:+ post
    ∧ (k ≠ "" ∧ v ≠ "" ∧ e ≠ "")
    ∧ (single_line k ∧ single_line v ∧ single_line e)
    ∧ (post = "" ∨ ∃ post', post = String "010" post').
Proof.
  intros Hp Hc.
  destruct (parse_taint_complete_inv t taint Hp Hc)
    as (whole & k & v & e & Hfind & ->).
  apply find_inv in Hfind as (pre & s & -> & Hm).
  apply match_taint_inv in Hm
    as (k' & v' & e' & post & [= -> -> ->] & _ & -> & Hne & Hl & Hpost).
  by exists k', v', e', pre, post.
Qed.

Lemma taint_fields_from_input_witness :
  ∃ k v e pre post,
    {| awsoc.Key := Some "a=b"; awsoc.Value := Some "c";
       awsoc.Effect := Some "d" |}
    = {| awsoc.Key := Some k; awsoc.Value := Some v; awsoc.Effect := Some e |}
    ∧ "a=b=c:d" = pre +:+ taint_string k v e +:+ post
    ∧ (k ≠ "" ∧ v ≠ "" ∧ e ≠ "")
    ∧ (single_line k ∧ single_line v ∧ single_line e)
    ∧ (post = "" ∨ ∃ post', post = String "010" post').
Proof.
  apply (taint_fields_from_input "a=b=c:d").
  - reflexivity.
  - repeat split; discriminate.
Defined.

(** The record of a one-line string spells the string. *)
Lemma taint_single_line_inv (t : string) taint :
  single_line t → parse_taint t = Ok taint → taint_complete taint →
  ∃ k v e,
    taint = {| awsoc.Key := Some k; awsoc.Value := Some v;
               awsoc.Effect := Some e |}
    ∧ t = taint_string k v e ∧ k ≠ "" ∧ v ≠ "" ∧ e ≠ "".
Proof.
  intros Hline Hp Hc.
  destruct (parse_taint_complete_inv t taint Hp Hc)
    as (whole & k & v & e & Hfind & ->).
  apply find_single_line in Hfind; [| done].
  apply match_taint_inv in Hfind
    as (k' & v' & e' & post & [= -> -> ->] & _ & -> & (? & ? & ?) & _ & Hpost).
  exists k', v', e'. repeat split; try done.
  destruct Hpost as [->|[post' ->]]; [by rewrite append_nil_r |].
  apply single_line_app in Hline as [_ Hline].
  by apply single_line_cons in Hline as [? _].
Qed.

(** X9.  Round trip on one line: when [buildOceanTaints] turns a string
    without newline into a record, joining the record's key, '=', value, ':'
    and effect gives the string back, and none of the three is empty. *)
Theorem taint_round_trip (t k v e : string) :
  single_line t →
  buildOceanTaints [t]
    = Ok (Some [{| awsoc.Key := Some k; awsoc.Value := Some v;
                   awsoc.Effect := Some e |}]) →
  t = taint_string k v e ∧ k ≠ "" ∧ v ≠ "" ∧ e ≠ "".
Proof.
  intros Hline. unfold buildOceanTaints. simpl.
  destruct (complete_taint_cases t)
    as [(taint & Hp & Hn & _)|(taint & Hp & Hc & _)]; rewrite Hp.
  - by destruct (decide _).
  - destruct (decide _) as [_|?]; [| done]. intros [= ->].
    destruct (taint_single_line_inv t _ Hline Hp Hc)
      as (k' & v' & e' & [= -> -> ->] & Ht). done.
Qed.

Lemma taint_round_trip_witness :
  "dedicated=true:NoSchedule" = taint_string "dedicated" "true" "NoSchedule"
  ∧ "dedicated" ≠ "" ∧ "true" ≠ "" ∧ "NoSchedule" ≠ "".
Proof.
  apply (taint_round_trip "dedicated=true:NoSchedule"); reflexivity.
Defined.

(** The pattern matches every string of the shape key=value:effect. *)
Lemma match_taint_complete (k v e : string) :
  k ≠ "" → v ≠ "" → e ≠ "" →
  single_line k → single_line v → single_line e →
  is_Some (regexp.match_here taint_re (taint_string k v e)).
Proof.
  intros Hk Hv He Lk Lv Le. unfold taint_string, taint_re.
  rewrite match_here_group. apply dot_plus_complete; [done | done |].
  change ("=" +:+ v +:+ ":" +:+ e) with (String "=" (v +:+ String ":" e)).
  rewrite match_here_lit, match_here_group.
  destruct (dot_plus_complete
    (λ taken rest,
       match regexp.match_here (regexp.Lit ":" :: re_effect) rest with
       | Some (whole, subs) => Some (taken +:+ whole, taken :: subs)
       | None => None
       end) v (String ":" e) Hv Lv) as [[w l] Hm].
  - by rewrite match_here_lit, (match_effect e He Le).
  - unfold re_effect in Hm. rewrite Hm. by eexists.
Qed.

(** X10.  Which one-line strings are kept: [buildOceanTaints] makes a record
    of a string without newline exactly when the string is some key, '=',
    some value, ':' and some effect, none of them empty. *)
Theorem taint_kept_iff_shape (t : string) :
  single_line t →
  ((∃ taint, buildOceanTaints [t] = Ok (Some [taint]))
   ↔ ∃ k v e, k ≠ "" ∧ v ≠ "" ∧ e ≠ "" ∧ t = taint_string k v e).
Proof.
  intros Hline. unfold buildOceanTaints. simpl.
  destruct (complete_taint_cases t)
    as [(taint & Hp & Hn & _)|(taint & Hp & Hc & _)]; rewrite Hp.
  - destruct (decide _) as [?|_]; [done |]. split; [by intros [? ?] |].
    intros (k & v & e & Hk & Hv & He & ->). exfalso.
    unfold taint_string in Hline.
    apply single_line_app in Hline as [Lk Hline].
    apply single_line_app in Hline as [_ Hline].
    apply single_line_app in Hline as [Lv Hline].
    apply single_line_app in Hline as [_ Le].
    destruct (match_taint_complete k v e Hk Hv He Lk Lv Le) as [[w subs] Hm].
    pose proof (match_here_groups _ _ _ _ Hm) as Hlen.
    apply find_here in Hm.
    unfold parse_taint, regexp.FindStringSubmatch in Hp.
    fold (taint_string k v e) in Hp. rewrite Hm in Hp.
    destruct subs as [|k' [|v' [|e' [|]]]]; try discriminate Hlen.
    injection Hp as <-. apply Hn. repeat split; discriminate.
  - destruct (decide _) as [_|Hn]; [| by destruct Hn].
    split; [| by eexists]. intros _.
    destruct (taint_single_line_inv t _ Hline Hp Hc)
      as (k & v & e & _ & -> & Hk & Hv & He). by exists k, v, e.
Qed.

Lemma taint_kept_iff_shape_witness :
  (∃ taint, buildOceanTaints ["k=v:NoExecute"] = Ok (Some [taint]))
  ↔ ∃ k v e, k ≠ "" ∧ v ≠ "" ∧ e ≠ "" ∧ "k=v:NoExecute" = taint_string k v e.
Proof. apply (taint_kept_iff_shape "k=v:NoExecute"). reflexivity. Defined.

(** X11.  A string without '=' or without ':' leaves no trace, newlines or
    not: the result is the one for the input without that string. *)
Theorem taint_without_separator_dropped (before after : list string)
    (t : string) :
  contains "="%char t = false ∨ contains ":"%char t = false →
  buildOceanTaints (before ++ t :: after) = buildOceanTaints (before ++ after).
Proof.
  intros Hsep.
  assert (Hdrop : complete_taint t = None).
  { destruct (complete_taint_cases t)
      as [(taint & _ & _ & H)|(taint & Hp & Hc & _)]; [done |].
    destruct (parse_taint_complete_inv t taint Hp Hc)
      as (whole & k & v & e & Hfind & _).
    apply find_inv in Hfind as (pre & s & -> & Hm).
    apply match_taint_inv in Hm as (k' & v' & e' & post & _ & _ & -> & _).
    destruct (contains_taint_string k' v' e') as [He Hc'].
    rewrite !contains_app, He, Hc', !orb_true_r in Hsep.
    by destruct Hsep. }
  unfold buildOceanTaints. rewrite !buildOceanTaints_loop_eq.
  do 2 f_equal. rewrite !kept_taints_app. f_equal.
  unfold kept_taints. simpl. by rewrite Hdrop.
Qed.

Lemma taint_without_separator_dropped_witness :
  buildOceanTaints (["a=b:c"] ++ "dedicated:NoSchedule" :: ["x=y:z"])
    = buildOceanTaints (["a=b:c"] ++ ["x=y:z"]).
Proof.
  apply (taint_without_separator_dropped ["a=b:c"] ["x=y:z"]
           "dedicated:NoSchedule").
  left. reflexivity.
Defined.

(** ** Taints: the result as a whole *)

Lemma kept_taints_nil (taints : list string) :
  kept_taints taints = [] ↔ ∀ t, t ∈ taints → complete_taint t = None.
Proof.
  unfold kept_taints. induction taints as [|t taints IH]; simpl.
  - split; [intros _ t Ht; by apply elem_of_nil in Ht | done].
  - destruct (complete_taint t) as [taint|] eqn:E.
    + split; [done |]. intros H.
      specialize (H t (list_elem_of_here _ _)). congruence.
    + rewrite IH. split.
      * intros H t' [->|Ht']%elem_of_cons; [done | by apply H].
      * intros H t' Ht'. by apply H, list_elem_of_further.
Qed.

Lemma kept_taints_length (taints : list string) :
  (length (kept_taints taints) ≤ length taints)%nat.
Proof.
  unfold kept_taints. induction taints as [|t taints IH]; [done |].
  change (omap complete_taint (t :: taints))
    with (match complete_taint t with
          | Some taint => taint :: omap complete_taint taints
          | None => omap complete_taint taints
          end).
  destruct (complete_taint t); simpl in *; lia.
Qed.

(** X12.  [buildOceanTaints] returns the nil slice, not an empty one, when
    it keeps nothing: the result is never an empty non-nil slice, and it is
    nil exactly when no input string yields a complete record (so for the
    empty input). *)
Theorem buildOceanTaints_nil_result (taints : list string) :
  buildOceanTaints taints ≠ Ok (Some [])
  ∧ (buildOceanTaints taints = Ok None
     ↔ ∀ t taint, t ∈ taints → parse_taint t = Ok taint →
                  ¬ taint_complete taint).
Proof.
  unfold buildOceanTaints. rewrite buildOceanTaints_loop_eq.
  destruct (kept_taints taints) as [|x l] eqn:E; simpl; split; try done.
  - split; [intros _ | done]. intros t taint Ht Hp Hc.
    apply kept_taints_nil with (t := t) in E; [| done].
    unfold complete_taint in E. rewrite Hp in E. by destruct (decide _).
  - split; [done |]. intros H. exfalso.
    assert (kept_taints taints = []) as E'; [| congruence].
    apply kept_taints_nil. intros t Ht.
    destruct (complete_taint_cases t)
      as [(taint & _ & _ & Hn)|(taint & Hp & Hc & _)]; [done |].
    by destruct (H t taint Ht Hp).
Qed.

(** X13.  [buildOceanTaints] works string by string and in order: the
    records for a concatenation are the records for the first part followed
    by the records for the second, and there are never more records than
    strings. *)
Theorem buildOceanTaints_app (l1 l2 : list string) :
  ∃ o1 o2 o,
    buildOceanTaints l1 = Ok o1 ∧ buildOceanTaints l2 = Ok o2
    ∧ buildOceanTaints (l1 ++ l2) = Ok o
    ∧ slice_elems o = slice_elems o1 ++ slice_elems o2
    ∧ (length (slice_elems o) ≤ length l1 + length l2)%nat.
Proof.
  unfold buildOceanTaints. rewrite !buildOceanTaints_loop_eq.
  eexists _, _, _. repeat (split; [reflexivity |]).
  assert (Hel : ∀ l : list awsoc.Taint, slice_elems (extend None l) = l)
    by (by intros [|? ?]).
  rewrite !Hel, kept_taints_app. split; [done |].
  rewrite length_app.
  pose proof (kept_taints_length l1). pose proof (kept_taints_length l2). lia.
Qed.

(** ** Tags and labels: reading the records back *)

Section TagsAndLabelsMore.

Variable map_range : gmap string string → list (string * string).
Hypothesis map_range_entries : ∀ m, map_range m ≡ₚ map_to_list m.

Lemma reads_back_map_range (m : gmap string string) :
  reads_back m ((λ p, (Some p.1, Some p.2)) <$> map_range m).
Proof.
  assert (Hnd : NoDup ((map_range m).*1)).
  { rewrite map_range_entries. apply NoDup_fst_map_to_list. }
  split.
  - assert (E : ((λ p : string * string, (Some p.1, Some p.2))
                   <$> map_range m).*1 = Some <$> (map_range m).*1).
    { rewrite <- !list_fmap_compose. by apply list_fmap_ext. }
    rewrite E. by apply (NoDup_fmap_2 Some).
  - assert (E : pair_entry <$> ((λ p : string * string, (Some p.1, Some p.2))
                   <$> map_range m) = map_range m).
    { rewrite <- list_fmap_compose. rewrite <- (list_fmap_id (map_range m)) at 2.
      apply list_fmap_ext. by intros i [k v] _. }
    rewrite E, (list_to_map_proper _ (map_to_list m)) by done.
    apply list_to_map_to_list.
Qed.

(** X14.  The records of each mapper can be read back into the map: no key
    is used by two records, and the records, taken as key and value, are a
    list of entries whose map is the input map. *)
Theorem mappers_read_back (m : gmap string string) :
  reads_back m (eg_tag_pair <$> slice_elems (buildElastigroupTags map_range m))
  ∧ reads_back m (oc_tag_pair <$> slice_elems (buildOceanTags map_range m))
  ∧ reads_back m
      (eg_label_pair <$> slice_elems (buildAutoScaleLabels map_range m))
  ∧ reads_back m (oc_label_pair <$> slice_elems (buildOceanLabels map_range m)).
Proof.
  pose proof (reads_back_map_range m) as H.
  rewrite (buildElastigroupTags_eq map_range), (buildOceanTags_eq map_range),
    (buildAutoScaleLabels_eq map_range), (buildOceanLabels_eq map_range).
  simpl. rewrite <- !list_fmap_compose. done.
Qed.

End TagsAndLabelsMore.

Lemma mappers_read_back_witness :
  let m : gmap string string := {[ "Name" := "nodes"; "k8s.io/role" := "node" ]} in
  reads_back m (eg_tag_pair <$> slice_elems (buildElastigroupTags map_to_list m))
  ∧ reads_back m (oc_tag_pair <$> slice_elems (buildOceanTags map_to_list m))
  ∧ reads_back m
      (eg_label_pair <$> slice_elems (buildAutoScaleLabels map_to_list m))
  ∧ reads_back m (oc_label_pair <$> slice_elems (buildOceanLabels map_to_list m)).
Proof.
  intros m. apply (mappers_read_back map_to_list). intros m'. reflexivity.
Defined.

(** X15.  The order in which the map is visited changes the order of the
    records and nothing else, and both API families get the same pairs: for
    any two visiting orders the elastigroup tags and the ocean tags are
    permutations of each other, and so are the two kinds of labels. *)
Theorem mappers_agree_up_to_order
    (range1 range2 : gmap string string → list (string * string))
    (m : gmap string string) :
  (∀ m, range1 m ≡ₚ map_to_list m) → (∀ m, range2 m ≡ₚ map_to_list m) →
  eg_tag_pair <$> slice_elems (buildElastigroupTags range1 m)
    ≡ₚ oc_tag_pair <$> slice_elems (buildOceanTags range2 m)
  ∧ eg_label_pair <$> slice_elems (buildAutoScaleLabels range1 m)
    ≡ₚ oc_label_pair <$> slice_elems (buildOceanLabels range2 m)
  ∧ eg_tag_pair <$> slice_elems (buildElastigroupTags range1 m)
    ≡ₚ eg_tag_pair <$> slice_elems (buildElastigroupTags range2 m).
Proof.
  intros H1 H2.
  rewrite !buildElastigroupTags_eq, buildOceanTags_eq,
    buildAutoScaleLabels_eq, buildOceanLabels_eq.
  simpl. rewrite <- !list_fmap_compose.
  repeat split; by rewrite H1, H2.
Qed.

Lemma mappers_agree_up_to_order_witness :
  let m : gmap string string := {[ "a" := "1"; "b" := "2"; "c" := "3" ]} in
  eg_tag_pair <$> slice_elems (buildElastigroupTags map_to_list m)
    ≡ₚ oc_tag_pair <$> slice_elems (buildOceanTags (λ m, reverse (map_to_list m)) m)
  ∧ eg_label_pair <$> slice_elems (buildAutoScaleLabels map_to_list m)
    ≡ₚ oc_label_pair
         <$> slice_elems (buildOceanLabels (λ m, reverse (map_to_list m)) m)
  ∧ eg_tag_pair <$> slice_elems (buildElastigroupTags map_to_list m)
    ≡ₚ eg_tag_pair
         <$> slice_elems (buildElastigroupTags (λ m, reverse (map_to_list m)) m).
Proof.
  intros m.
  apply (mappers_agree_up_to_order map_to_list (λ m, reverse (map_to_list m))).
  - intros m'. reflexivity.
  - intros m'. apply reverse_Permutation.
Defined.

(** ** Subnets: when the comparison panics *)

